(** * Hormuud channel handler (handlers/hormuud/hormuud.go)

    A shallow embedding of the outbound path of the Hormuud handler:
    [FetchToken] (Redis-cached bearer token, fetched from the provider on a
    miss) and [SendMsg] (one HTTP POST per message part, accumulating a
    message status with one channel log per HTTP exchange).

    The handler talks to Redis, to the provider over HTTP and to logrus.  These
    effects are threaded through an explicit [World]; what the outside answers
    is fixed by the fields of the [Externals] class. *)

From stdpp Require Import gmap strings list.

Local Open Scope string_scope.
Local Open Scope list_scope.
Local Open Scope Z_scope.

(** ** Errors *)

(** [fmt.Errorf]/[errors.Errorf] build a fresh error, [errors.Wrapf] wraps a
    cause with a message. *)
Inductive error : Type :=
| Errorf (msg : string)
| Wrapf (cause : error) (msg : string).

(** ** Package-level variables (hormuud.go, lines 22-26) *)

Definition maxMsgLength : nat := 160.
Definition tokenURL : string := "https://smsapi.hormuud.com/token".
Definition sendURL : string := "https://smsapi.hormuud.com/api/SendSMS".

Definition MethodPost : string := "POST".

(** ** Gateway types used by the handler *)

(** A channel: its UUID, its address (the sender id) and its string
    configuration. *)
Record Channel : Type := {
  UUID : string;
  Address : string;
  Config : gmap string string
}.

(** Modelled from the spec: the configuration keys [courier.ConfigUsername]
    and [courier.ConfigPassword] are declared outside this file; the handler's
    own error messages name them 'username' and 'password'. *)
Definition ConfigUsername : string := "username".
Definition ConfigPassword : string := "password".

Definition StringConfigForKey (c : Channel) (key def : string) : string :=
  default def (Config c !! key).

(** An outbound message; [URNPath] is [msg.URN().Path()]. *)
Record Msg : Type := {
  ID : Z;
  MsgChannel : Channel;
  URNPath : string;
  Text : string;
  Attachments : list string
}.

(** Modelled from the spec: [courier.MsgStatusValue] is declared outside this
    file; the spec lists the delivery states errored, wired, sent, failed. *)
Inductive MsgStatusValue : Type :=
| MsgErrored
| MsgWired
| MsgSent
| MsgFailed.

(** ** HTTP requests and responses *)

(** JSON values the handler encodes: strings and integers. *)
Inductive JSONValue : Type :=
| JSONString (s : string)
| JSONInt (n : Z).

(** A request body is either the encoded [url.Values] form or the JSON
    object the encoder writes, both kept as their field lists. *)
Inductive RequestBody : Type :=
| FormBody (form : list (string * list string))
| JSONBody (fields : list (string * JSONValue)).

Record Request : Type := {
  Method : string;
  URL : string;
  Header : list (string * string);
  ReqBody : RequestBody
}.

Definition NewRequest (method url : string) (body : RequestBody) : Request :=
  {| Method := method; URL := url; Header := []; ReqBody := body |}.

(** [req.Header.Set(k, v)]: replaces the value stored under [k], or adds
    the entry.  Names are compared as written: net/http first brings a name
    to its canonical form, which the names the handler passes (Content-Type,
    Accept, Authorization) already have. *)
Fixpoint header_set (k v : string) (h : list (string * string))
  : list (string * string) :=
  match h with
  | [] => [(k, v)]
  | (k', v') :: h' =>
      if decide (k' = k) then (k, v) :: h' else (k', v') :: header_set k v h'
  end.

Fixpoint header_get (k : string) (h : list (string * string)) : option string :=
  match h with
  | [] => None
  | (k', v') :: h' => if decide (k' = k) then Some v' else header_get k h'
  end.

Definition Header_Set (k v : string) (req : Request) : Request :=
  {| Method := Method req; URL := URL req;
     Header := header_set k v (Header req); ReqBody := ReqBody req |}.

(** [utils.RequestResponse]: what [utils.MakeHTTPRequest] hands back, on
    success and on failure alike (lines 127 and 135 read it unguarded). *)
Record RequestResponse : Type := {
  StatusCode : Z;
  Body : string
}.

(** ** The send payload (lines 74-81) *)

Record mtPayload : Type := {
  Mobile : string;
  Message : string;
  SenderID : string;
  MType : Z;
  EType : Z;
  UDH : string
}.

(** [json.NewEncoder(..).Encode(payload)]: one member per struct field, named
    by its json tag, in declaration order. *)
Definition Encode (p : mtPayload) : RequestBody :=
  JSONBody [ ("mobile", JSONString (Mobile p));
             ("message", JSONString (Message p));
             ("senderid", JSONString (SenderID p));
             ("mType", JSONInt (MType p));
             ("eType", JSONInt (EType p));
             ("UDH", JSONString (UDH p)) ].

(** [strings.TrimPrefix]. *)
Fixpoint strip_prefix (prefix s : string) : option string :=
  match prefix, s with
  | EmptyString, _ => Some s
  | String a p, String b t =>
      if Ascii.eqb a b then strip_prefix p t else None
  | String _ _, EmptyString => None
  end.

Definition TrimPrefix (s prefix : string) : string :=
  default s (strip_prefix prefix s).

(** ** Channel logs and message status *)

(** Modelled from the spec: [courier.ChannelLog] and its constructors are
    declared outside this file; a diagnostic entry records one HTTP exchange
    and the error, if any.  [WithError] does nothing for a nil error; for an
    error it stores the error and replaces the entry's description by the
    one it is given. *)
Record ChannelLog : Type := {
  Description : string;
  LogChannel : Channel;
  LogMsgID : Z;
  LogRR : RequestResponse;
  LogErr : option error
}.

Definition NewChannelLogFromRR (description : string) (c : Channel) (id : Z)
    (rr : RequestResponse) : ChannelLog :=
  {| Description := description; LogChannel := c; LogMsgID := id;
     LogRR := rr; LogErr := None |}.

Definition WithError (description : string) (err : option error)
    (l : ChannelLog) : ChannelLog :=
  match err with
  | Some e =>
      {| Description := description; LogChannel := LogChannel l;
         LogMsgID := LogMsgID l; LogRR := LogRR l; LogErr := Some e |}
  | None => l
  end.

(** Modelled from the spec: [courier.MsgStatus] is declared outside this
    file; it holds the current state, the optional external identifier
    (empty while unset) and the ordered log entries. *)
Record MsgStatus : Type := {
  StatusChannel : Channel;
  StatusID : Z;
  Status : MsgStatusValue;
  ExternalID : string;
  Logs : list ChannelLog
}.

Definition NewMsgStatusForID (c : Channel) (id : Z) (s : MsgStatusValue)
  : MsgStatus :=
  {| StatusChannel := c; StatusID := id; Status := s;
     ExternalID := ""; Logs := [] |}.

Definition AddLog (l : ChannelLog) (st : MsgStatus) : MsgStatus :=
  {| StatusChannel := StatusChannel st; StatusID := StatusID st;
     Status := Status st; ExternalID := ExternalID st;
     Logs := Logs st ++ [l] |}.

Definition SetStatus (s : MsgStatusValue) (st : MsgStatus) : MsgStatus :=
  {| StatusChannel := StatusChannel st; StatusID := StatusID st;
     Status := s; ExternalID := ExternalID st; Logs := Logs st |}.

Definition SetExternalID (id : string) (st : MsgStatus) : MsgStatus :=
  {| StatusChannel := StatusChannel st; StatusID := StatusID st;
     Status := Status st; ExternalID := id; Logs := Logs st |}.

(** ** The world the handler acts on *)

(** [redis]: the shared store, each key with its value and the TTL (seconds)
    it was written with; [requests]: the HTTP requests made so far, oldest
    first; [errlog]: what was reported through logrus. *)
Record World : Type := {
  redis : gmap string (string * Z);
  requests : list Request;
  errlog : list (string * error)
}.

(** What the outside answers.  [transport n req] is the outcome of
    [utils.MakeHTTPRequest] for the [n]-th request of the world;
    [GetString] is [jsonparser.GetString]; [redisGET] and [redisSETEX] are
    the connection errors, if any, of the two Redis commands;
    [SplitMsgByChannel] and [GetTextAndAttachments] are the gateway's
    helpers. *)
Class Externals : Type := {
  transport : nat → Request → RequestResponse * option error;
  GetString : string → list string → string * option error;
  redisGET : option error;
  redisSETEX : option error;
  SplitMsgByChannel : Channel → string → nat → list string;
  GetTextAndAttachments : Msg → string
}.

(** ** A state monad over the world *)

Definition M (A : Type) : Type := World → A * World.

Definition ret {A} (a : A) : M A := λ w, (a, w).

Definition bind {A B} (m : M A) (k : A → M B) : M B :=
  λ w, let (a, w') := m w in k a w'.

Declare Scope handler_scope.
Delimit Scope handler_scope with handler.
Notation "'do' x <- m ; k" := (bind m (λ x, k))
  (at level 10, x pattern, m at level 100, k at level 200) : handler_scope.
Local Open Scope handler_scope.

Section Handler.
Context {E : Externals}.

(** [redis.String(conn.Do("GET", key))]: the stored string; the empty
    string with an error when the command fails or the key is absent. *)
Definition redis_GET (key : string) : M (string * option error) :=
  λ w, match redisGET with
       | Some e => (("", Some e), w)
       | None =>
           match redis w !! key with
           | Some (v, _) => ((v, None), w)
           | None => (("", Some (Errorf "redigo: nil returned")), w)
           end
       end.

(** [conn.Do("SETEX", key, ttl, value)]. *)
Definition redis_SETEX (key : string) (ttl : Z) (value : string)
  : M (option error) :=
  λ w, match redisSETEX with
       | Some e => (Some e, w)
       | None =>
           (None, {| redis := <[key := (value, ttl)]> (redis w);
                     requests := requests w; errlog := errlog w |})
       end.

(** [utils.MakeHTTPRequest(req)]: the request goes out and is recorded. *)
Definition MakeHTTPRequest (req : Request)
  : M (RequestResponse * option error) :=
  λ w, (transport (length (requests w)) req,
        {| redis := redis w; requests := requests w ++ [req];
           errlog := errlog w |}).

(** [logrus.WithError(err).Error(msg)]. *)
Definition logrus_Error (err : error) (msg : string) : M unit :=
  λ w, (tt, {| redis := redis w; requests := requests w;
               errlog := errlog w ++ [(msg, err)] |}).

Definition tokenKey (channel : Channel) : string :=
  "hm_token_" +:+ UUID channel.

Definition tokenRequest (username password : string) : Request :=
  let form := [ ("Username", [username]);
                ("Password", [password]);
                ("grant_type", ["password"]) ] in
  let req := NewRequest MethodPost tokenURL (FormBody form) in
  let req := Header_Set "Content-Type" "application/x-www-form-urlencoded" req in
  Header_Set "Accept" "application/json" req.

(** Lines 160-205: no cached token, go and fetch one. *)
Definition requestToken (channel : Channel)
  : M (string * option RequestResponse * option error) :=
  let username := StringConfigForKey channel ConfigUsername "" in
  if decide (username = "") then
    ret ("", None, Some (Errorf "Missing 'username' config for HM channel"))
  else
  let password := StringConfigForKey channel ConfigPassword "" in
  if decide (password = "") then
    ret ("", None, Some (Errorf "Missing 'password' config for HM channel"))
  else
  do (rr, err) <- MakeHTTPRequest (tokenRequest username password);
  match err with
  | Some e => ret ("", Some rr, Some (Wrapf e "error making token request"))
  | None =>
  let '(token, err) := GetString (Body rr) ["access_token"] in
  match err with
  | Some e =>
      ret ("", Some rr,
           Some (Wrapf e "error getting access_token from response"))
  | None =>
  if decide (token = "") then
    ret ("", Some rr, Some (Errorf "no access token returned"))
  else
  do err <- redis_SETEX (tokenKey channel) 5340 token;
  do _ <- match err with
          | Some e => logrus_Error e "error caching HM access token"
          | None => ret tt
          end;
  ret (token, Some rr, None)
  end
  end.

(** Lines 149-206. *)
Definition FetchToken (channel : Channel) (msg : Msg)
  : M (string * option RequestResponse * option error) :=
  do (token, _) <- redis_GET (tokenKey channel);
  if decide (token ≠ "") then ret (token, None, None)
  else requestToken channel.

(** Lines 105-120: the request for one part. *)
Definition sendRequest (msg : Msg) (token part : string) : Request :=
  let payload :=
    {| Mobile := TrimPrefix (URNPath msg) "+";
       Message := part;
       SenderID := Address (MsgChannel msg);
       MType := -1;
       EType := -1;
       UDH := "" |} in
  let req := NewRequest MethodPost sendURL (Encode payload) in
  let req := Header_Set "Content-Type" "application/json" req in
  let req := Header_Set "Accept" "application/json" req in
  Header_Set "Authorization" ("Bearer " +:+ token) req.

(** Lines 104-139: the loop over the parts, [i] being the index of the
    part at the head of [parts]. *)
Fixpoint sendParts (msg : Msg) (token : string) (i : nat)
    (parts : list string) (status : MsgStatus) : M MsgStatus :=
  match parts with
  | [] => ret status
  | part :: parts' =>
      do (rr, err) <- MakeHTTPRequest (sendRequest msg token part);
      let log :=
        WithError "Message Send Error" err
          (NewChannelLogFromRR "Message Sent" (MsgChannel msg) (ID msg) rr) in
      let status := AddLog log status in
      match err with
      | Some _ => ret status
      | None =>
          let status := SetStatus MsgWired status in
          let '(id, _) := GetString (Body rr) ["Data"; "MessageID"] in
          let status :=
            if decide (id ≠ "" ∧ i = 0%nat) then SetExternalID id status
            else status in
          sendParts msg token (S i) parts' status
      end
  end.

(** Lines 84-142.  The status is [None] where the Go code returns nil. *)
Definition SendMsg (msg : Msg) : M (option MsgStatus * option error) :=
  let status := NewMsgStatusForID (MsgChannel msg) (ID msg) MsgErrored in
  do (token, rr, err) <- FetchToken (MsgChannel msg) msg;
  match rr, err with
  | None, Some e => ret (None, Some (Wrapf e "unable to fetch token"))
  | _, _ =>
  let status :=
    match rr with
    | Some rr =>
        AddLog (WithError "Token Retrieval Error" err
                  (NewChannelLogFromRR "Token Retrieved" (MsgChannel msg)
                     (ID msg) rr)) status
    | None => status
    end in
  match err with
  | Some _ => ret (Some status, None)
  | None =>
  let parts :=
    SplitMsgByChannel (MsgChannel msg) (GetTextAndAttachments msg)
      maxMsgLength in
  do status <- sendParts msg token 0 parts status;
  ret (Some status, None)
  end
  end.

End Handler.

(** ** Vocabulary for the statements *)

Section Vocabulary.
Context {E : Externals}.

(** The world after one more request went out. *)
Definition withRequest (req : Request) (w : World) : World :=
  {| redis := redis w; requests := requests w ++ [req];
     errlog := errlog w |}.

(** The log entry line 94 builds for the token exchange. *)
Definition tokenLog (msg : Msg) (rr : RequestResponse) (err : option error)
  : ChannelLog :=
  WithError "Token Retrieval Error" err
    (NewChannelLogFromRR "Token Retrieved" (MsgChannel msg) (ID msg) rr).

(** The log entry line 127 builds for one part. *)
Definition sendLog (msg : Msg) (ans : RequestResponse * option error)
  : ChannelLog :=
  WithError "Message Send Error" ans.2
    (NewChannelLogFromRR "Message Sent" (MsgChannel msg) (ID msg) ans.1).

(** The provider's identifier in a send response (line 135). *)
Definition messageID (rr : RequestResponse) : string :=
  (GetString (Body rr) ["Data"; "MessageID"]).1.

(** Lines 132-138: what a send without error does to the status. *)
Definition wired (i : nat) (rr : RequestResponse) (status : MsgStatus)
  : MsgStatus :=
  let status := SetStatus MsgWired status in
  if decide (messageID rr ≠ "" ∧ i = 0%nat)
  then SetExternalID (messageID rr) status else status.

(** The transport's answer to the send of [part] as the [j]-th request
    after those of [w]. *)
Definition answer (msg : Msg) (token : string) (w : World) (j : nat)
    (part : string) : RequestResponse * option error :=
  transport (length (requests w) + j) (sendRequest msg token part).

(** The answer to the send of the first part, when [SendMsg] gets as far
    as sending it. *)
Definition firstSend (msg : Msg) (w : World)
  : option (RequestResponse * option error) :=
  let '((token, _, err), w1) := FetchToken (MsgChannel msg) msg w in
  match err,
        SplitMsgByChannel (MsgChannel msg) (GetTextAndAttachments msg)
          maxMsgLength with
  | None, part :: _ => Some (answer msg token w1 0 part)
  | _, _ => None
  end.

(** Lines 85-96: the status as it stands once the token exchange, if
    there was one, is logged. *)
Definition tokenStatus (msg : Msg) (rr : option RequestResponse)
    (err : option error) : MsgStatus :=
  let status := NewMsgStatusForID (MsgChannel msg) (ID msg) MsgErrored in
  match rr with
  | Some rr => AddLog (tokenLog msg rr err) status
  | None => status
  end.

(** [SendMsg] hands back an errored status without log entries and an
    error, and sends nothing. *)
Definition erroredWithoutLogs (msg : Msg) (w : World) : Prop :=
  ∃ st e,
    (SendMsg msg w).1 = (Some st, Some e) ∧
    Status st = MsgErrored ∧ Logs st = [] ∧
    requests (SendMsg msg w).2 = requests w.

End Vocabulary.

(** The same outside, with another outcome for the cache write. *)
Definition withSETEX (E : Externals) (r : option error) : Externals :=
  {| transport := @transport E;
     GetString := @GetString E;
     redisGET := @redisGET E;
     redisSETEX := r;
     SplitMsgByChannel := @SplitMsgByChannel E;
     GetTextAndAttachments := @GetTextAndAttachments E |}.

(** ** The message segmenter *)

(** Modelled from the spec: [handlers.SplitMsgByChannel] is defined outside
    this file.  The spec asks for a deterministic split, in text order, into
    parts of at most [max] characters whose concatenation is the text, a text
    of at most [max] characters being its own single part.  [split_loop]
    fills a part one character at a time and emits it once it holds [max]
    characters. *)
Fixpoint split_loop (max : nat) (part text : string) : list string :=
  match text with
  | EmptyString => if decide (part = "") then [] else [part]
  | String r text' =>
      let part := part +:+ String r "" in
      if decide (String.length part = max) then
        part :: split_loop max "" text'
      else split_loop max part text'
  end.

Definition SplitMsg (text : string) (max : nat) : list string :=
  if decide (String.length text ≤ max)%nat then [text]
  else split_loop max "" text.

(** The in-order concatenation of the parts. *)
Definition join (parts : list string) : string :=
  foldr String.append "" parts.

(** [parts] segments [text] under the limit [max]: at least one part, no
    part empty or longer than [max], and the parts make up the text. *)
Definition segmented (max : nat) (text : string) (parts : list string) : Prop :=
  parts ≠ [] ∧
  Forall (λ p, p ≠ "" ∧ (String.length p ≤ max)%nat) parts ∧
  join parts = text.

(** ** A scripted outside, for running the handler *)

Module Demo.

(** The [n]-th request is answered by the [n]-th entry of the script; past
    its end the transport fails. *)
Definition scripted (script : list (RequestResponse * option error))
    (n : nat) (_ : Request) : RequestResponse * option error :=
  default ({| StatusCode := 0; Body := "" |}, Some (Errorf "connection refused"))
          (script !! n).

(** A stand-in for the JSON parser: the body is the value of whichever
    field is asked for, the body [-] standing for a field holding the empty
    string and the empty body for a missing field. *)
Definition fieldOf (body : string) (_ : list string) : string * option error :=
  if decide (body = "") then ("", Some (Errorf "Key path not found"))
  else if decide (body = "-") then ("", None)
  else (body, None).

Definition textAndAttachments (m : Msg) : string :=
  foldl (λ acc a, acc +:+ " " +:+ a) (Text m) (Attachments m).

Definition outside (script : list (RequestResponse * option error))
    (get setex : option error) : Externals :=
  {| transport := scripted script;
     GetString := fieldOf;
     redisGET := get;
     redisSETEX := setex;
     SplitMsgByChannel := λ _ text max, SplitMsg text max;
     GetTextAndAttachments := textAndAttachments |}.

Definition ok (body : string) : RequestResponse * option error :=
  ({| StatusCode := 200; Body := body |}, None).

Definition failed : RequestResponse * option error :=
  ({| StatusCode := 0; Body := "" |}, Some (Errorf "connection reset")).

Definition channel (username password : string) : Channel :=
  {| UUID := "8eb23e93";
     Address := "2020";
     Config := <["password" := password]> (<["username" := username]> ∅) |}.

Definition message (c : Channel) (text : string) : Msg :=
  {| ID := 10; MsgChannel := c; URNPath := "+252788383383";
     Text := text; Attachments := [] |}.

Definition cold : World :=
  {| redis := ∅; requests := []; errlog := [] |}.

Definition warm (token : string) : World :=
  {| redis := {[ "hm_token_8eb23e93" := (token, 5340) ]};
     requests := []; errlog := [] |}.

(** A text of 200 characters: two parts under the limit of 160. *)
Definition longText : string :=
  Eval cbv in
    foldr String.append "" (replicate 20 "0123456789").

(** The two parts of [longText]. *)
Definition part1 : string := Eval cbv in default "" (SplitMsg longText 160 !! 0%nat).
Definition part2 : string := Eval cbv in default "" (SplitMsg longText 160 !! 1%nat).

(** A channel with both credentials, and one without username. *)
Definition hm : Channel := channel "user" "secret".
Definition hmNoUser : Channel := channel "" "secret".

(** The token endpoint hands out T1, the first part is accepted as id-1,
    the second is answered by id-2. *)
Definition allFine : Externals :=
  outside [ok "T1"; ok "id-1"; ok "id-2"] None None.

(** As [allFine], but the connection drops on the second part. *)
Definition dropsSecond : Externals :=
  outside [ok "T1"; ok "id-1"; failed] None None.

(** The token endpoint answers with an empty [access_token]. *)
Definition emptyToken : Externals := outside [ok "-"] None None.

(** The token endpoint is fine but Redis refuses the write. *)
Definition noCacheWrite : Externals :=
  outside [ok "T1"] None (Some (Errorf "redis: connection refused")).

(** Nothing answers. *)
Definition silent : Externals := outside [] None None.

(** The connection drops on the token request. *)
Definition tokenDown : Externals := outside [failed] None None.

(** No token request is expected: the one answer is for a send. *)
Definition sendOnly : Externals := outside [ok "id-1"] None None.

(** The status [SendMsg] returns (a failed one standing for nil). *)
Definition returned (E : Externals) (msg : Msg) (w : World) : MsgStatus :=
  default (NewMsgStatusForID (MsgChannel msg) (ID msg) MsgFailed)
          (@SendMsg E msg w).1.1.

End Demo.

(** ** Running the handler on small inputs *)

Example trim_plus : TrimPrefix "+252788383383" "+" = "252788383383".
Proof. reflexivity. Qed.

Example trim_no_plus : TrimPrefix "252788383383" "+" = "252788383383".
Proof. reflexivity. Qed.

Example split_short : SplitMsg "hello" 160 = ["hello"].
Proof. reflexivity. Qed.

Example split_long :
  String.length <$> SplitMsg Demo.longText 160 = [160%nat; 40%nat].
Proof. vm_compute. reflexivity. Qed.

Example split_small : SplitMsg "abcdefg" 3 = ["abc"; "def"; "g"].
Proof. reflexivity. Qed.

Example fetch_warm :
  (@FetchToken (Demo.outside [] None None) (Demo.channel "u" "p")
     (Demo.message (Demo.channel "u" "p") "hi") (Demo.warm "T0")).1
  = ("T0", None, None).
Proof. vm_compute. reflexivity. Qed.

Example send_two_parts :
  let E := Demo.outside [Demo.ok "T1"; Demo.ok "id-1"; Demo.ok "id-2"] None None in
  let c := Demo.channel "u" "p" in
  match (@SendMsg E (Demo.message c Demo.longText) Demo.cold).1 with
  | (Some st, None) =>
      Status st = MsgWired ∧ ExternalID st = "id-1" ∧ length (Logs st) = 3%nat
  | _ => False
  end.
Proof. vm_compute. auto. Qed.

(** ** The token fetch *)

Section FetchTokenFacts.
Context {E : Externals}.
Implicit Types (w : World) (c : Channel) (msg : Msg).

(** The cache lookup never touches the world. *)
Lemma redis_GET_world key w : (redis_GET key w).2 = w.
Proof.
  unfold redis_GET. destruct redisGET; [done|].
  destruct (redis w !! key) as [[v ttl]|]; done.
Qed.

(** On a miss the cache is bypassed. *)
Lemma FetchToken_miss c msg w :
  (redis_GET (tokenKey c) w).1.1 = "" →
  FetchToken c msg w = requestToken c w.
Proof.
  intros Hmiss. unfold FetchToken, bind.
  pose proof (redis_GET_world (tokenKey c) w) as Hw.
  destruct (redis_GET (tokenKey c) w) as [[token e] w'].
  simpl in *. subst. rewrite decide_False; [done|]. intros Hne; by apply Hne.
Qed.

Lemma FetchToken_hit c msg w token ttl :
  redisGET = None →
  redis w !! tokenKey c = Some (token, ttl) →
  token ≠ "" →
  FetchToken c msg w = ((token, None, None), w).
Proof.
  intros Hup Hget Hne. unfold FetchToken, bind, redis_GET.
  rewrite Hup, Hget. by rewrite decide_True.
Qed.

(** A live fetch with both credentials set, a transport answer without
    error and a non-empty [access_token]. *)
Lemma requestToken_ok c w rr token :
  StringConfigForKey c ConfigUsername "" ≠ "" →
  StringConfigForKey c ConfigPassword "" ≠ "" →
  transport (length (requests w))
    (tokenRequest (StringConfigForKey c ConfigUsername "")
                  (StringConfigForKey c ConfigPassword "")) = (rr, None) →
  GetString (Body rr) ["access_token"] = (token, None) →
  token ≠ "" →
  requestToken c w =
    ((token, Some rr, None),
     {| redis := match redisSETEX with
                 | None => <[tokenKey c := (token, 5340)]> (redis w)
                 | Some _ => redis w
                 end;
        requests := requests w ++
                    [tokenRequest (StringConfigForKey c ConfigUsername "")
                                  (StringConfigForKey c ConfigPassword "")];
        errlog := match redisSETEX with
                  | None => errlog w
                  | Some e => errlog w ++ [("error caching HM access token", e)]
                  end |}).
Proof.
  intros Hu Hp Ht Hg Hne. unfold requestToken.
  rewrite (decide_False (P := _ = "")) by done.
  rewrite (decide_False (P := _ = "")) by done.
  unfold bind, MakeHTTPRequest. rewrite Ht, Hg.
  rewrite (decide_False (P := token = "")) by done.
  unfold redis_SETEX, logrus_Error, ret. by destruct redisSETEX.
Qed.

(** What a token fetch can return, and what it does to the world. *)
Lemma requestToken_cases c w token rr err w' :
  requestToken c w = ((token, rr, err), w') →
  (rr = None ∧ token = "" ∧ is_Some err ∧ w' = w ∧
     (StringConfigForKey c ConfigUsername "" = "" ∨
      StringConfigForKey c ConfigPassword "" = ""))
  ∨ (is_Some rr ∧ token = "" ∧ is_Some err ∧ redis w' = redis w ∧
     errlog w' = errlog w ∧
     requests w' = requests w ++
       [tokenRequest (StringConfigForKey c ConfigUsername "")
                     (StringConfigForKey c ConfigPassword "")])
  ∨ (is_Some rr ∧ token ≠ "" ∧ err = None ∧
     requests w' = requests w ++
       [tokenRequest (StringConfigForKey c ConfigUsername "")
                     (StringConfigForKey c ConfigPassword "")]).
Proof.
  unfold requestToken.
  destruct (decide (StringConfigForKey c ConfigUsername "" = "")) as [Hu|Hu].
  { intros [= <- <- <- <-]. left. eauto 10. }
  destruct (decide (StringConfigForKey c ConfigPassword "" = "")) as [Hp|Hp].
  { intros [= <- <- <- <-]. left. eauto 10. }
  unfold bind, MakeHTTPRequest.
  destruct (transport _ _) as [rr0 [e|]].
  { intros [= <- <- <- <-]. right; left. simpl. eauto 10. }
  destruct (GetString _ _) as [token0 [e|]].
  { intros [= <- <- <- <-]. right; left. simpl. eauto 10. }
  destruct (decide (token0 = "")) as [Ht|Ht].
  { intros [= <- <- <- <-]. right; left. simpl. eauto 10. }
  unfold redis_SETEX, logrus_Error, ret.
  destruct redisSETEX; intros [= <- <- <- <-]; right; right; simpl; eauto 10.
Qed.

End FetchTokenFacts.

(** ** The loop over the parts *)

Section SendPartsFacts.
Context {E : Externals}.
Implicit Types (w : World) (msg : Msg) (st : MsgStatus).

Lemma sendParts_nil msg token i st w :
  sendParts msg token i [] st w = (st, w).
Proof. done. Qed.

(** One turn of the loop whose send fails: the entry is logged and the
    loop is left. *)
Lemma sendParts_err msg token i part parts st w rr e :
  answer msg token w 0 part = (rr, Some e) →
  sendParts msg token i (part :: parts) st w =
    (AddLog (sendLog msg (rr, Some e)) st,
     withRequest (sendRequest msg token part) w).
Proof.
  unfold answer. rewrite Nat.add_0_r. intros Ha.
  simpl. unfold bind, MakeHTTPRequest. by rewrite Ha.
Qed.

(** One turn of the loop whose send succeeds. *)
Lemma sendParts_ok msg token i part parts st w rr :
  answer msg token w 0 part = (rr, None) →
  sendParts msg token i (part :: parts) st w =
    sendParts msg token (S i) parts
      (wired i rr (AddLog (sendLog msg (rr, None)) st))
      (withRequest (sendRequest msg token part) w).
Proof.
  unfold answer. rewrite Nat.add_0_r. intros Ha.
  simpl. unfold bind, MakeHTTPRequest. rewrite Ha.
  unfold wired, messageID. destruct (GetString _ _) as [id e]. done.
Qed.

Lemma answer_withRequest msg token req w j part :
  answer msg token (withRequest req w) j part = answer msg token w (S j) part.
Proof.
  unfold answer, withRequest. simpl. rewrite length_app. simpl.
  f_equal. lia.
Qed.

Lemma wired_Status i rr st : Status (wired i rr st) = MsgWired.
Proof. unfold wired. by destruct (decide _). Qed.

Lemma wired_Logs i rr st : Logs (wired i rr st) = Logs st.
Proof. unfold wired. by destruct (decide _). Qed.

Lemma wired_ExternalID_later i rr st :
  i ≠ 0%nat → ExternalID (wired i rr st) = ExternalID st.
Proof.
  intros Hi. unfold wired.
  destruct (decide (messageID rr ≠ "" ∧ i = 0%nat)) as [[_ ?]|_]; done.
Qed.

Lemma wired_ExternalID_first rr st :
  ExternalID (wired 0 rr st) =
    if decide (messageID rr = "") then ExternalID st else messageID rr.
Proof.
  unfold wired. destruct (decide (messageID rr = "")) as [He|He].
  - rewrite decide_False; [done|]. by intros [? _].
  - rewrite decide_True; done.
Qed.

(** The loop only ever adds requests, and leaves Redis and logrus alone. *)
Lemma sendParts_frame msg token parts : ∀ i st w,
  ∃ sent rest,
    parts = sent ++ rest ∧
    requests (sendParts msg token i parts st w).2 =
      requests w ++ (sendRequest msg token <$> sent) ∧
    redis (sendParts msg token i parts st w).2 = redis w ∧
    errlog (sendParts msg token i parts st w).2 = errlog w.
Proof.
  induction parts as [|part parts IH]; intros i st w.
  - exists [], []. simpl. by rewrite app_nil_r.
  - destruct (answer msg token w 0 part) as [rr [e|]] eqn:Ha.
    + rewrite (sendParts_err _ _ _ _ _ _ _ _ _ Ha).
      exists [part], parts. done.
    + rewrite (sendParts_ok _ _ _ _ _ _ _ _ Ha).
      destruct (IH (S i) (wired i rr (AddLog (sendLog msg (rr, None)) st))
                  (withRequest (sendRequest msg token part) w))
        as (sent & rest & -> & Hr & Hd & Hl).
      exists (part :: sent), rest. rewrite Hr, Hd, Hl. simpl.
      by rewrite <- app_assoc.
Qed.

(** Past the first part the external identifier is never written. *)
Lemma sendParts_ExternalID_later msg token parts : ∀ i st w,
  i ≠ 0%nat →
  ExternalID (sendParts msg token i parts st w).1 = ExternalID st.
Proof.
  induction parts as [|part parts IH]; intros i st w Hi; [done|].
  destruct (answer msg token w 0 part) as [rr [e|]] eqn:Ha.
  - by rewrite (sendParts_err _ _ _ _ _ _ _ _ _ Ha).
  - rewrite (sendParts_ok _ _ _ _ _ _ _ _ Ha), IH by lia.
    by rewrite wired_ExternalID_later.
Qed.

(** Once a send succeeded the state is wired for good. *)
Lemma sendParts_Status_wired msg token parts : ∀ i st w,
  Status st = MsgWired →
  Status (sendParts msg token i parts st w).1 = MsgWired.
Proof.
  induction parts as [|part parts IH]; intros i st w Hs; [done|].
  destruct (answer msg token w 0 part) as [rr [e|]] eqn:Ha.
  - by rewrite (sendParts_err _ _ _ _ _ _ _ _ _ Ha).
  - rewrite (sendParts_ok _ _ _ _ _ _ _ _ Ha). apply IH, wired_Status.
Qed.

(** The state after the loop is decided by the first send. *)
Lemma sendParts_Status msg token parts i st w :
  Status (sendParts msg token i parts st w).1 =
    match parts with
    | [] => Status st
    | part :: _ =>
        match (answer msg token w 0 part).2 with
        | None => MsgWired
        | Some _ => Status st
        end
    end.
Proof.
  destruct parts as [|part parts]; [done|].
  destruct (answer msg token w 0 part) as [rr [e|]] eqn:Ha.
  - by rewrite (sendParts_err _ _ _ _ _ _ _ _ _ Ha).
  - rewrite (sendParts_ok _ _ _ _ _ _ _ _ Ha). simpl.
    apply sendParts_Status_wired, wired_Status.
Qed.

(** The external identifier after the loop is decided by the first
    response. *)
Lemma sendParts_ExternalID msg token parts st w :
  ExternalID (sendParts msg token 0 parts st w).1 =
    match parts with
    | [] => ExternalID st
    | part :: _ =>
        match answer msg token w 0 part with
        | (rr, None) =>
            if decide (messageID rr = "") then ExternalID st
            else messageID rr
        | (_, Some _) => ExternalID st
        end
    end.
Proof.
  destruct parts as [|part parts]; [done|].
  destruct (answer msg token w 0 part) as [rr [e|]] eqn:Ha.
  - by rewrite (sendParts_err _ _ _ _ _ _ _ _ _ Ha).
  - rewrite (sendParts_ok _ _ _ _ _ _ _ _ Ha).
    rewrite sendParts_ExternalID_later by lia.
    by rewrite wired_ExternalID_first.
Qed.

(** The loop only appends entries, those without error described as
    "Message Sent", and ends wired exactly when it started wired or logged a
    send without error. *)
Lemma sendParts_Logs msg token parts : ∀ i st w,
  ∃ new,
    Logs (sendParts msg token i parts st w).1 = Logs st ++ new ∧
    Forall (λ l, LogErr l = None → Description l = "Message Sent") new ∧
    (Status (sendParts msg token i parts st w).1 = MsgWired ↔
     Status st = MsgWired ∨ ∃ l, l ∈ new ∧ LogErr l = None).
Proof.
  induction parts as [|part parts IH]; intros i st w.
  - exists []. simpl. rewrite app_nil_r. split_and!; [done|constructor|].
    split; [by left|]. intros [?|(l & Hl & _)]; [done|]. by inversion Hl.
  - destruct (answer msg token w 0 part) as [rr [e|]] eqn:Ha.
    + rewrite (sendParts_err _ _ _ _ _ _ _ _ _ Ha).
      exists [sendLog msg (rr, Some e)]. simpl.
      split_and!; [done|by repeat constructor|].
      split; [by left|]. intros [?|(l & Hl & Hn)]; [done|].
      apply list_elem_of_singleton in Hl. by subst.
    + rewrite (sendParts_ok _ _ _ _ _ _ _ _ Ha).
      destruct (IH (S i) (wired i rr (AddLog (sendLog msg (rr, None)) st))
                  (withRequest (sendRequest msg token part) w))
        as (new & Hl & Hd & Hs).
      exists (sendLog msg (rr, None) :: new).
      rewrite Hl, wired_Logs. simpl. rewrite <- app_assoc. simpl.
      split_and!; [done|by constructor|].
      split.
      * intros _. right. exists (sendLog msg (rr, None)). split; [left|done].
      * intros _. apply Hs. left. apply wired_Status.
Qed.

(** A run in which the parts of [pre] are sent without error and the
    send of [part] fails. *)
Lemma sendParts_fail_at msg token part post e rr : ∀ pre i st w,
  (∀ j p, pre !! j = Some p → (answer msg token w j p).2 = None) →
  answer msg token w (length pre) part = (rr, Some e) →
  let r := sendParts msg token i (pre ++ part :: post) st w in
  requests r.2 =
    requests w ++ (sendRequest msg token <$> (pre ++ [part])) ∧
  Logs r.1 =
    Logs st ++ imap (λ j p, sendLog msg (answer msg token w j p))
                    (pre ++ [part]) ∧
  Status r.1 = match pre with [] => Status st | _ :: _ => MsgWired end.
Proof.
  induction pre as [|p pre IH]; intros i st w Hpre Hfail r; subst r.
  - simpl in Hfail. rewrite app_nil_l.
    rewrite (sendParts_err _ _ _ _ _ _ _ _ _ Hfail). simpl.
    by rewrite Hfail.
  - pose proof (Hpre 0%nat p eq_refl) as H0. simpl in Hfail.
    rewrite <- app_comm_cons.
    destruct (answer msg token w 0 p) as [rr0 [e0|]] eqn:Ha; [done|].
    rewrite (sendParts_ok _ _ _ _ _ _ _ _ Ha).
    set (st1 := wired i rr0 _). set (w1 := withRequest _ w).
    destruct (IH (S i) st1 w1) as (Hr & Hl & Hs).
    { intros j q Hq. unfold w1. rewrite answer_withRequest.
      by apply (Hpre (S j)). }
    { unfold w1. by rewrite answer_withRequest. }
    rewrite Hr, Hl. split_and!.
    + unfold w1. simpl. by rewrite <- app_assoc.
    + unfold st1. rewrite wired_Logs. simpl. rewrite <- app_assoc. simpl.
      rewrite Ha. do 2 f_equal. apply imap_ext. intros j q _. unfold w1.
      by rewrite answer_withRequest.
    + apply sendParts_Status_wired. unfold st1. apply wired_Status.
Qed.

End SendPartsFacts.

(** ** [SendMsg] *)

Section SendMsgFacts.
Context {E : Externals}.
Implicit Types (w : World) (c : Channel) (msg : Msg) (st : MsgStatus).

(** [SendMsg] split at the outcome of the token fetch. *)
Lemma SendMsg_unfold msg w token rr err w1 :
  FetchToken (MsgChannel msg) msg w = ((token, rr, err), w1) →
  SendMsg msg w =
    match rr, err with
    | None, Some e => ((None, Some (Wrapf e "unable to fetch token")), w1)
    | _, Some _ => ((Some (tokenStatus msg rr err), None), w1)
    | _, None =>
        let r := sendParts msg token 0
                   (SplitMsgByChannel (MsgChannel msg)
                      (GetTextAndAttachments msg) maxMsgLength)
                   (tokenStatus msg rr err) w1 in
        ((Some r.1, None), r.2)
    end.
Proof.
  intros Hf. unfold SendMsg, bind. rewrite Hf.
  destruct rr as [rr|], err as [e|]; try done;
    unfold tokenStatus, tokenLog; simpl;
    by destruct (sendParts _ _ _ _ _ _).
Qed.

Lemma tokenStatus_Status msg rr err :
  Status (tokenStatus msg rr err) = MsgErrored.
Proof. by destruct rr. Qed.

Lemma tokenStatus_ExternalID msg rr err :
  ExternalID (tokenStatus msg rr err) = "".
Proof. by destruct rr. Qed.

Lemma tokenStatus_Logs msg rr err :
  Logs (tokenStatus msg rr err) =
    match rr with Some r => [tokenLog msg r err] | None => [] end.
Proof. by destruct rr. Qed.

Lemma tokenLog_Description msg rr err :
  Description (tokenLog msg rr err) =
    match err with
    | Some _ => "Token Retrieval Error"
    | None => "Token Retrieved"
    end.
Proof. by destruct err. Qed.

(** A token fetch that returns no response record has an error only when
    it stopped at the credentials, before any request. *)
Lemma FetchToken_world c msg w token rr err w1 :
  FetchToken c msg w = ((token, rr, err), w1) →
  requests w1 =
    requests w ++
    match rr with
    | Some _ => [tokenRequest (StringConfigForKey c ConfigUsername "")
                              (StringConfigForKey c ConfigPassword "")]
    | None => []
    end.
Proof.
  unfold FetchToken, bind.
  pose proof (redis_GET_world (tokenKey c) w) as Hw.
  destruct (redis_GET (tokenKey c) w) as [[t e] w0]. simpl in Hw. subst w0.
  destruct (decide (t ≠ "")) as [Ht|Ht].
  - intros [= <- <- <- <-]. by rewrite app_nil_r.
  - intros Hr. apply requestToken_cases in Hr
      as [(-> & _ & _ & -> & _)|[([r ->] & _ & _ & _ & _ & ->)
                                 |([r ->] & _ & _ & ->)]];
      [by rewrite app_nil_r|done..].
Qed.

End SendMsgFacts.

(** ** The cache write does not steer the send *)

Section CacheWrite.
Context (E : Externals) (r : option error).
Implicit Types (w : World) (c : Channel) (msg : Msg) (st : MsgStatus).

(** The loop reads the world only through the number of requests made. *)
Lemma sendParts_SETEX_irrelevant msg token parts : ∀ i st w1 w2,
  requests w1 = requests w2 →
  (@sendParts (withSETEX E r) msg token i parts st w1).1 =
    (@sendParts E msg token i parts st w2).1.
Proof.
  induction parts as [|part parts IH]; intros i st w1 w2 Hw; [done|].
  assert (@answer (withSETEX E r) msg token w1 0 part =
          @answer E msg token w2 0 part) as Ha.
  { unfold answer. by rewrite Hw. }
  destruct (@answer E msg token w2 0 part) as [rr [e|]] eqn:Ha2.
  - by rewrite (sendParts_err _ _ _ _ _ _ _ _ _ Ha),
               (sendParts_err _ _ _ _ _ _ _ _ _ Ha2).
  - rewrite (sendParts_ok _ _ _ _ _ _ _ _ Ha),
            (sendParts_ok _ _ _ _ _ _ _ _ Ha2).
    apply IH. simpl. by rewrite Hw.
Qed.

Lemma requestToken_SETEX_irrelevant c w :
  (@requestToken (withSETEX E r) c w).1 = (@requestToken E c w).1 ∧
  requests (@requestToken (withSETEX E r) c w).2 =
    requests (@requestToken E c w).2.
Proof.
  unfold requestToken.
  destruct (decide (StringConfigForKey c ConfigUsername "" = ""));
    [done|].
  destruct (decide (StringConfigForKey c ConfigPassword "" = ""));
    [done|].
  unfold bind, MakeHTTPRequest. simpl.
  destruct (transport _ _) as [rr [e|]]; [done|].
  destruct (GetString _ _) as [token [e|]]; [done|].
  destruct (decide (token = "")); [done|].
  unfold redis_SETEX, logrus_Error, ret. simpl.
  by destruct r, (@redisSETEX E).
Qed.

Lemma FetchToken_SETEX_irrelevant c msg w :
  (@FetchToken (withSETEX E r) c msg w).1 = (@FetchToken E c msg w).1 ∧
  requests (@FetchToken (withSETEX E r) c msg w).2 =
    requests (@FetchToken E c msg w).2.
Proof.
  unfold FetchToken, bind.
  change (@redis_GET (withSETEX E r)) with (@redis_GET E).
  destruct (redis_GET (tokenKey c) w) as [[t e] w0].
  destruct (decide (t ≠ "")); [done|].
  apply requestToken_SETEX_irrelevant.
Qed.

Lemma SendMsg_SETEX_irrelevant msg w :
  (@SendMsg (withSETEX E r) msg w).1 = (@SendMsg E msg w).1.
Proof.
  destruct (FetchToken_SETEX_irrelevant (MsgChannel msg) msg w) as [H1 Hr].
  destruct (@FetchToken (withSETEX E r) (MsgChannel msg) msg w)
    as [[[t1 rr1] e1] w1] eqn:Hf1.
  destruct (@FetchToken E (MsgChannel msg) msg w)
    as [[[t2 rr2] e2] w2] eqn:Hf2.
  simpl in H1, Hr. injection H1 as -> -> ->.
  rewrite (SendMsg_unfold _ _ _ _ _ _ Hf1), (SendMsg_unfold _ _ _ _ _ _ Hf2).
  destruct rr2, e2; try done; simpl; f_equal; f_equal;
    by apply sendParts_SETEX_irrelevant.
Qed.

End CacheWrite.

(** ** Properties of the token fetch and of its failures *)

Section TokenProperties.
Context {E : Externals}.
Implicit Types (w : World) (c : Channel) (msg : Msg) (st : MsgStatus).

(** C1 (as amended): when the cache holds no token for the channel and the
    channel's username is empty (or, the username being set, its password
    is empty), [SendMsg] returns no status at all (nil) together with the
    error naming the missing field, wrapped as "unable to fetch token", and
    leaves the world as it was: no HTTP request is made. *)
Theorem SendMsg_missing_credentials msg w :
  (redis_GET (tokenKey (MsgChannel msg)) w).1.1 = "" →
  StringConfigForKey (MsgChannel msg) ConfigUsername "" = "" ∨
  StringConfigForKey (MsgChannel msg) ConfigPassword "" = "" →
  SendMsg msg w =
    ((None,
      Some (Wrapf
              (Errorf
                 (if decide (StringConfigForKey (MsgChannel msg)
                               ConfigUsername "" = "")
                  then "Missing 'username' config for HM channel"
                  else "Missing 'password' config for HM channel"))
              "unable to fetch token")),
     w).
Proof.
  intros Hmiss Hcred.
  assert (FetchToken (MsgChannel msg) msg w =
            (("", None,
              Some (Errorf
                 (if decide (StringConfigForKey (MsgChannel msg)
                               ConfigUsername "" = "")
                  then "Missing 'username' config for HM channel"
                  else "Missing 'password' config for HM channel"))), w))
    as Hf.
  { rewrite FetchToken_miss by done. unfold requestToken.
    destruct (decide (StringConfigForKey (MsgChannel msg)
                        ConfigUsername "" = "")) as [Hu|Hu]; [done|].
    destruct Hcred as [?|Hp]; [done|]. by rewrite decide_True. }
  by rewrite (SendMsg_unfold _ _ _ _ _ _ Hf).
Qed.

(** C3: when the cache misses, both credentials are set and the token
    endpoint answers without transport error but [access_token] is absent
    or empty, [SendMsg] returns an errored status whose only log entry is
    the one of the token exchange (it holds the token endpoint's response
    and the error), with a nil error, and the only request made is the token
    request. *)
Theorem SendMsg_empty_access_token msg w rr :
  let username := StringConfigForKey (MsgChannel msg) ConfigUsername "" in
  let password := StringConfigForKey (MsgChannel msg) ConfigPassword "" in
  (redis_GET (tokenKey (MsgChannel msg)) w).1.1 = "" →
  username ≠ "" →
  password ≠ "" →
  transport (length (requests w)) (tokenRequest username password)
    = (rr, None) →
  is_Some (GetString (Body rr) ["access_token"]).2 ∨
  (GetString (Body rr) ["access_token"]).1 = "" →
  ∃ st e,
    SendMsg msg w =
      ((Some st, None), withRequest (tokenRequest username password) w) ∧
    Status st = MsgErrored ∧
    Logs st = [tokenLog msg rr (Some e)] ∧
    LogRR (tokenLog msg rr (Some e)) = rr ∧
    LogErr (tokenLog msg rr (Some e)) = Some e ∧
    ExternalID st = "".
Proof.
  intros username password Hmiss Hu Hp Ht Hg.
  assert (∃ e, FetchToken (MsgChannel msg) msg w =
                 (("", Some rr, Some e),
                  withRequest (tokenRequest username password) w))
    as [e Hf].
  { rewrite FetchToken_miss by done. unfold requestToken.
    fold username. rewrite (decide_False (P := username = "")) by done.
    fold password. rewrite (decide_False (P := password = "")) by done.
    unfold bind, MakeHTTPRequest. rewrite Ht.
    destruct (GetString (Body rr) ["access_token"]) as [token [e|]];
      [by eexists|].
    simpl in Hg. destruct Hg as [[? [=]]| ->]. by eexists. }
  exists (tokenStatus msg (Some rr) (Some e)), e.
  by rewrite (SendMsg_unfold _ _ _ _ _ _ Hf).
Qed.

(** C7: with a warm cache (the store answers and holds a non-empty token
    under the channel's key) [FetchToken] returns the cached token with no
    response record and no error and leaves the world untouched, so two
    fetches in a row add no request either. *)
Theorem FetchToken_warm_cache c msg w token ttl :
  redisGET = None →
  redis w !! ("hm_token_" +:+ UUID c) = Some (token, ttl) →
  token ≠ "" →
  FetchToken c msg w = ((token, None, None), w) ∧
  (do _ <- FetchToken c msg; FetchToken c msg) w = ((token, None, None), w) ∧
  requests ((do _ <- FetchToken c msg; FetchToken c msg) w).2 = requests w.
Proof.
  intros Hup Hget Hne.
  pose proof (FetchToken_hit c msg w token ttl Hup Hget Hne) as Hf.
  split; [done|]. unfold bind. by rewrite Hf, Hf.
Qed.

(** C9: a token that [FetchToken] returns with a nil error is never empty;
    it is either the non-empty cached value, or, the cached value being
    empty or missing, the non-empty [access_token] of a live fetch. *)
Theorem FetchToken_token_nonempty c msg w token rr w' :
  FetchToken c msg w = ((token, rr, None), w') →
  token ≠ "" ∧
  match rr with
  | None => (redis_GET (tokenKey c) w).1.1 = token
  | Some r =>
      (redis_GET (tokenKey c) w).1.1 = "" ∧
      GetString (Body r) ["access_token"] = (token, None)
  end.
Proof.
  unfold FetchToken, bind.
  pose proof (redis_GET_world (tokenKey c) w) as Hw.
  destruct (redis_GET (tokenKey c) w) as [[t e] w0]. simpl in *. subst w0.
  destruct (decide (t ≠ "")) as [Ht|Ht].
  { by intros [= <- <- <-]. }
  assert (t = "") as -> by (by destruct (decide (t = ""))).
  unfold requestToken.
  destruct (decide (StringConfigForKey c ConfigUsername "" = ""));
    [done|].
  destruct (decide (StringConfigForKey c ConfigPassword "" = ""));
    [done|].
  unfold bind, MakeHTTPRequest.
  destruct (transport _ _) as [rr0 [e0|]]; [done|].
  destruct (GetString (Body rr0) ["access_token"]) as [token0 [e0|]] eqn:Hg;
    [done|].
  destruct (decide (token0 = "")); [done|].
  unfold redis_SETEX, logrus_Error, ret.
  destruct redisSETEX; intros [= <- <- <-]; by rewrite Hg.
Qed.

End TokenProperties.

(** C6: after a live token fetch that succeeds, the token is written under
    "hm_token_<channel UUID>" with a TTL of 5340 seconds; when that write
    fails the store is left as it was, the failure goes to logrus, and the
    fetch still returns the token with a nil error.  What [SendMsg] returns
    does not depend on the outcome of the cache write. *)
Theorem FetchToken_caches_token (E : Externals) c msg w rr token :
  let username := StringConfigForKey c ConfigUsername "" in
  let password := StringConfigForKey c ConfigPassword "" in
  (redis_GET (tokenKey c) w).1.1 = "" →
  username ≠ "" →
  password ≠ "" →
  transport (length (requests w)) (tokenRequest username password)
    = (rr, None) →
  GetString (Body rr) ["access_token"] = (token, None) →
  token ≠ "" →
  ∃ w',
    FetchToken c msg w = ((token, Some rr, None), w') ∧
    requests w' = requests w ++ [tokenRequest username password] ∧
    match redisSETEX with
    | None =>
        redis w' = <["hm_token_" +:+ UUID c := (token, 5340)]> (redis w) ∧
        errlog w' = errlog w
    | Some e =>
        redis w' = redis w ∧
        errlog w' = errlog w ++ [("error caching HM access token", e)]
    end ∧
    ∀ r m, (@SendMsg (withSETEX E r) m w).1 = (@SendMsg E m w).1.
Proof.
  intros username password Hmiss Hu Hp Ht Hg Hne.
  eexists. split.
  { rewrite FetchToken_miss by done.
    by apply requestToken_ok. }
  simpl. split; [done|]. split; [by destruct redisSETEX|].
  intros r m. apply SendMsg_SETEX_irrelevant.
Qed.

(** ** Strings *)

Section Strings.
Implicit Types (text s p : string).

Lemma append_nil_l text : "" +:+ text = text.
Proof. reflexivity. Qed.

Lemma append_cons a (s t : string) : String a s +:+ t = String a (s +:+ t).
Proof. reflexivity. Qed.

Lemma append_nil_r text : text +:+ "" = text.
Proof.
  induction text as [|a text IH]; [done|]. by rewrite append_cons, IH.
Qed.

Lemma append_assoc (a b c : string) : (a +:+ b) +:+ c = a +:+ (b +:+ c).
Proof.
  induction a as [|x a IH]; [done|]. by rewrite !append_cons, IH.
Qed.

Lemma length_append (a b : string) :
  String.length (a +:+ b) = (String.length a + String.length b)%nat.
Proof.
  induction a as [|x a IH]; [done|]. rewrite append_cons. simpl.
  by rewrite IH.
Qed.

Lemma strip_prefix_append p s : strip_prefix p (p +:+ s) = Some s.
Proof.
  induction p as [|a p IH]; [by destruct s|].
  rewrite append_cons. simpl. by rewrite Ascii.eqb_refl.
Qed.

Lemma strip_prefix_not_prefix p : ∀ s,
  String.prefix p s = false → strip_prefix p s = None.
Proof.
  induction p as [|a p IH]; intros s; simpl.
  - by destruct s.
  - destruct s as [|b s]; [done|]. simpl.
    destruct (Ascii.ascii_dec a b) as [->|Hab].
    + rewrite Ascii.eqb_refl. apply IH.
    + intros _. apply Ascii.eqb_neq in Hab. by rewrite Hab.
Qed.

Lemma prefix_true_append p : ∀ s,
  String.prefix p s = true → ∃ t, s = p +:+ t.
Proof.
  induction p as [|a p IH]; intros s.
  - intros _. by exists s.
  - destruct s as [|b s]; simpl; [done|].
    destruct (Ascii.ascii_dec a b) as [->|Hab]; [|done].
    intros [t ->]%IH. by exists t.
Qed.

End Strings.

(** ** Properties of the send loop as [SendMsg] runs it *)

Section SendProperties.
Context {E : Externals}.
Implicit Types (w : World) (c : Channel) (msg : Msg) (st : MsgStatus).

(** C2: when the token was obtained, the parts of [pre] are sent without
    error and the send of the next part fails at the transport, the loop
    stops there: the requests made are those for [pre] and for the failing
    part and none for the parts after it, the log holds one entry per
    attempted part (after the token entry, if any), the last of them being
    the failing part's, the external identifier is the one of the first
    response, and the state is wired unless no part was sent before the
    failure, in which case it is still errored. *)
Theorem SendMsg_transport_failure msg w token rr0 w1 pre part post rr e :
  FetchToken (MsgChannel msg) msg w = ((token, rr0, None), w1) →
  SplitMsgByChannel (MsgChannel msg) (GetTextAndAttachments msg)
    maxMsgLength = pre ++ part :: post →
  (∀ j p, pre !! j = Some p → (answer msg token w1 j p).2 = None) →
  answer msg token w1 (length pre) part = (rr, Some e) →
  ∃ st w2,
    SendMsg msg w = ((Some st, None), w2) ∧
    requests w2 =
      requests w1 ++ (sendRequest msg token <$> (pre ++ [part])) ∧
    Logs st =
      match rr0 with Some r => [tokenLog msg r None] | None => [] end ++
      imap (λ j p, sendLog msg (answer msg token w1 j p)) (pre ++ [part]) ∧
    last (Logs st) = Some (sendLog msg (rr, Some e)) ∧
    LogErr (sendLog msg (rr, Some e)) = Some e ∧
    Status st =
      match pre with [] => MsgErrored | _ :: _ => MsgWired end ∧
    ExternalID st =
      match pre with
      | [] => ""
      | p0 :: _ => messageID (answer msg token w1 0 p0).1
      end.
Proof.
  intros Hf Hparts Hpre Hfail.
  rewrite (SendMsg_unfold _ _ _ _ _ _ Hf), Hparts.
  destruct (sendParts_fail_at msg token part post e rr pre 0
              (tokenStatus msg rr0 None) w1 Hpre Hfail)
    as (Hr & Hl & Hs).
  set (r := sendParts msg token 0 (pre ++ part :: post)
              (tokenStatus msg rr0 None) w1) in *.
  exists r.1, r.2. split; [by destruct rr0|]. split; [done|].
  rewrite Hl, tokenStatus_Logs. split; [done|]. split.
  { rewrite imap_app. simpl. rewrite Nat.add_0_r, Hfail.
    by rewrite app_assoc, last_snoc. }
  split; [done|]. rewrite Hs, tokenStatus_Status. split; [done|].
  unfold r. rewrite sendParts_ExternalID, tokenStatus_ExternalID.
  destruct pre as [|p0 pre]; simpl.
  - simpl in Hfail. by rewrite Hfail.
  - pose proof (Hpre 0%nat p0 eq_refl) as H0.
    destruct (answer msg token w1 0 p0) as [r0 [e0|]]; [done|]. simpl.
    by destruct (decide (messageID r0 = "")).
Qed.

(** C4: the external identifier of a returned status is the identifier
    found in the first part's response when that send went through, and
    is unset otherwise; from the second part on the loop never writes it;
    a turn of the loop whose send goes through sets the state to wired,
    so the returned status is wired once the first send went through. *)
Theorem SendMsg_ExternalID msg w st :
  (SendMsg msg w).1.1 = Some st →
  ExternalID st =
    match firstSend msg w with
    | Some (rr, None) => messageID rr
    | _ => ""
    end ∧
  (∀ rr, firstSend msg w = Some (rr, None) → Status st = MsgWired) ∧
  (∀ token i parts st0 w0,
     i ≠ 0%nat →
     ExternalID (sendParts msg token i parts st0 w0).1 = ExternalID st0) ∧
  (∀ token i part parts st0 w0 rr,
     answer msg token w0 0 part = (rr, None) →
     ∃ st1,
       sendParts msg token i (part :: parts) st0 w0 =
         sendParts msg token (S i) parts st1
           (withRequest (sendRequest msg token part) w0) ∧
       Status st1 = MsgWired).
Proof.
  intros Hst. split_and!.
  - unfold firstSend.
    destruct (FetchToken (MsgChannel msg) msg w) as [[[token rr] err] w1]
      eqn:Hf.
    rewrite (SendMsg_unfold _ _ _ _ _ _ Hf) in Hst.
    destruct err as [e|].
    { destruct rr; [|done]. simpl in Hst. by injection Hst as <-. }
    assert (st = (sendParts msg token 0
                    (SplitMsgByChannel (MsgChannel msg)
                       (GetTextAndAttachments msg) maxMsgLength)
                    (tokenStatus msg rr None) w1).1) as ->.
    { destruct rr; simpl in Hst; by injection Hst as <-. }
    rewrite sendParts_ExternalID, tokenStatus_ExternalID.
    destruct (SplitMsgByChannel _ _ _) as [|part parts]; [done|].
    destruct (answer msg token w1 0 part) as [r0 [e0|]]; [done|].
    by destruct (decide (messageID r0 = "")).
  - intros rr. unfold firstSend.
    destruct (FetchToken (MsgChannel msg) msg w) as [[[token rr1] err] w1]
      eqn:Hf.
    rewrite (SendMsg_unfold _ _ _ _ _ _ Hf) in Hst.
    destruct err as [e|]; [done|].
    assert (st = (sendParts msg token 0
                    (SplitMsgByChannel (MsgChannel msg)
                       (GetTextAndAttachments msg) maxMsgLength)
                    (tokenStatus msg rr1 None) w1).1) as ->.
    { destruct rr1; simpl in Hst; by injection Hst as <-. }
    rewrite sendParts_Status.
    destruct (SplitMsgByChannel _ _ _) as [|part parts]; [done|].
    intros [= Ha]. by rewrite Ha.
  - intros token i parts st0 w0 Hi. by apply sendParts_ExternalID_later.
  - intros token i part parts st0 w0 rr Ha. eexists. split.
    + by apply sendParts_ok.
    + apply wired_Status.
Qed.

(** C5: every request [SendMsg] makes after the token fetch is the send
    request of one of the parts, in order and without gaps; each such
    request is a POST to the send endpoint whose JSON body has exactly the
    members mobile, message (the part), senderid (the channel address),
    mType -1, eType -1 and an empty UDH, and whose Authorization header is
    "Bearer " followed by the fetched token.  The mobile is the URN path
    without its leading plus sign when it has one, and the URN path itself
    when it has none. *)
Theorem SendMsg_send_requests msg w token rr err w1 :
  FetchToken (MsgChannel msg) msg w = ((token, rr, err), w1) →
  (∃ sent rest,
     SplitMsgByChannel (MsgChannel msg) (GetTextAndAttachments msg)
       maxMsgLength = sent ++ rest ∧
     requests (SendMsg msg w).2 =
       requests w1 ++ (sendRequest msg token <$> sent) ∧
     (is_Some err → sent = [])) ∧
  ∀ part,
    ∃ mobile,
      (URNPath msg = "+" +:+ mobile ∨
       (String.prefix "+" (URNPath msg) = false ∧ mobile = URNPath msg)) ∧
      Method (sendRequest msg token part) = "POST" ∧
      URL (sendRequest msg token part) = sendURL ∧
      ReqBody (sendRequest msg token part) =
        JSONBody [ ("mobile", JSONString mobile);
                   ("message", JSONString part);
                   ("senderid", JSONString (Address (MsgChannel msg)));
                   ("mType", JSONInt (-1));
                   ("eType", JSONInt (-1));
                   ("UDH", JSONString "") ] ∧
      header_get "Authorization" (Header (sendRequest msg token part)) =
        Some ("Bearer " +:+ token).
Proof.
  intros Hf. split.
  - rewrite (SendMsg_unfold _ _ _ _ _ _ Hf).
    set (parts := SplitMsgByChannel _ _ _).
    assert (∃ sent rest, parts = sent ++ rest ∧
              requests w1 = requests w1 ++ (sendRequest msg token <$> sent) ∧
              (is_Some err → sent = [])) as Hstop.
    { exists [], parts. simpl. by rewrite app_nil_r. }
    destruct err as [e|].
    { by destruct rr. }
    destruct (sendParts_frame msg token parts 0 (tokenStatus msg rr None) w1)
      as (sent & rest & Hp & Hr & _).
    assert (∃ sent rest, parts = sent ++ rest ∧
              requests (sendParts msg token 0 parts
                          (tokenStatus msg rr None) w1).2 =
                requests w1 ++ (sendRequest msg token <$> sent) ∧
              (is_Some (@None error) → sent = [])) as Hgo.
    { exists sent, rest. split_and!; [done..|]. by intros [? [=]]. }
    by destruct rr.
  - intros part. exists (TrimPrefix (URNPath msg) "+").
    split; [|done]. unfold TrimPrefix.
    destruct (String.prefix "+" (URNPath msg)) eqn:Hpre.
    + left. apply prefix_true_append in Hpre as [path ->].
      by rewrite strip_prefix_append.
    + right. split; [done|]. by rewrite strip_prefix_not_prefix.
Qed.

(** C10: a status returned by [SendMsg] is errored or wired; it is wired
    exactly when its log holds a send entry without error, which is
    exactly when the first send went through. *)
Theorem SendMsg_status_states msg w st :
  (SendMsg msg w).1.1 = Some st →
  (Status st = MsgErrored ∨ Status st = MsgWired) ∧
  (Status st = MsgWired ↔
   ∃ l, l ∈ Logs st ∧ Description l = "Message Sent" ∧ LogErr l = None) ∧
  (Status st = MsgWired ↔ ∃ rr, firstSend msg w = Some (rr, None)).
Proof.
  intros Hst. unfold firstSend.
  destruct (FetchToken (MsgChannel msg) msg w) as [[[token rr] err] w1]
    eqn:Hf.
  rewrite (SendMsg_unfold _ _ _ _ _ _ Hf) in Hst.
  assert (∀ l, l ∈ Logs (tokenStatus msg rr err) →
               Description l ≠ "Message Sent") as Htok.
  { intros l. rewrite tokenStatus_Logs. destruct rr as [r|].
    - intros ->%list_elem_of_singleton. rewrite tokenLog_Description.
      by destruct err.
    - by intros ?%elem_of_nil. }
  destruct err as [e|].
  { assert (st = tokenStatus msg rr (Some e)) as ->.
    { destruct rr; [|done]. simpl in Hst. by injection Hst as <-. }
    rewrite tokenStatus_Status. split_and!; [by left| |].
    - split; [done|]. intros (l & Hl & Hd & _). by apply Htok in Hl.
    - split; [done|]. by intros [? ?]. }
  set (parts := SplitMsgByChannel _ _ _) in *.
  assert (st = (sendParts msg token 0 parts
                  (tokenStatus msg rr None) w1).1) as ->.
  { destruct rr; simpl in Hst; by injection Hst as <-. }
  destruct (sendParts_Logs msg token parts 0 (tokenStatus msg rr None) w1)
    as (new & Hl & Hd & Hs).
  rewrite tokenStatus_Status in Hs.
  pose proof (sendParts_Status msg token parts 0
                (tokenStatus msg rr None) w1) as Hfirst.
  rewrite tokenStatus_Status in Hfirst.
  split_and!.
  - rewrite Hfirst. destruct parts as [|part parts']; [by left|].
    destruct (answer msg token w1 0 part).2; [by left|by right].
  - rewrite Hs, Hl. split.
    + intros [?|(l & Hin & Hn)]; [done|]. exists l. split_and!; [|  |done].
      * apply elem_of_app. by right.
      * eapply Forall_forall in Hd; [|done]. by apply Hd.
    + intros (l & Hin & Hdesc & Hn). right. exists l. split; [|done].
      apply elem_of_app in Hin as [Hin|Hin]; [|done].
      by apply Htok in Hin.
  - rewrite Hfirst. destruct parts as [|part parts'].
    { split; [done|]. by intros [? ?]. }
    destruct (answer msg token w1 0 part) as [r0 [e0|]]; simpl.
    + split; [done|]. by intros [? [=]].
    + split; [|done]. intros _. by exists r0.
Qed.

End SendProperties.

(** ** The segmenter *)

Section Segmenter.
Implicit Types (text part : string) (parts : list string) (max : nat).

(** The loop emits full parts and keeps the rest in [part]. *)
Lemma split_loop_spec max : ∀ text part,
  (String.length part < max)%nat →
  join (split_loop max part text) = part +:+ text ∧
  Forall (λ p, p ≠ "" ∧ (String.length p ≤ max)%nat)
         (split_loop max part text) ∧
  (part +:+ text ≠ "" → split_loop max part text ≠ []).
Proof.
  induction text as [|r text IH]; intros part Hlt; simpl.
  - rewrite append_nil_r. destruct (decide (part = "")) as [->|Hne].
    + by split_and!.
    + simpl. rewrite append_nil_r. split_and!; [done| |done].
      constructor; [|done]. split; [done|lia].
  - assert (String.length (part +:+ String r "") = S (String.length part))
      as Hlen by (rewrite length_append; simpl; lia).
    assert ((part +:+ String r "") +:+ text = part +:+ String r text)
      as Happ by (by rewrite append_assoc, append_cons, append_nil_l).
    destruct (decide (String.length (part +:+ String r "") = max))
      as [Hfull|Hroom].
    + destruct (IH "") as (Hj & Hf & _); [simpl; lia|].
      simpl. rewrite Hj, append_nil_l, Happ. split_and!; [done| |done].
      constructor; [|done]. split; [|lia].
      intros Hnil. rewrite Hnil in Hlen. simpl in Hlen. lia.
    + destruct (IH (part +:+ String r "")) as (Hj & Hf & Hn); [lia|].
      rewrite Hj, Happ. split_and!; [done..|].
      intros _. apply Hn. intros Hnil.
      apply (f_equal String.length) in Hnil.
      rewrite length_append, Hlen in Hnil. simpl in Hnil. lia.
Qed.

(** No split of the empty text can have parts that are all non-empty. *)
Lemma segmented_empty max parts : ¬ segmented max "" parts.
Proof.
  intros (Hne & Hf & Hj). destruct parts as [|p parts]; [done|].
  apply Forall_cons in Hf as [[Hp _] _]. simpl in Hj.
  destruct p; [done|]. rewrite append_cons in Hj. discriminate Hj.
Qed.

(** C8 (as amended): with the limit of 160, every non-empty text is split
    into one or more non-empty parts of at most 160 characters each whose
    concatenation is the text, and every text of at most 160 characters,
    the empty one included, is its own single part. *)
Theorem SplitMsg_segmented text :
  (text ≠ "" → segmented maxMsgLength text (SplitMsg text maxMsgLength)) ∧
  ((String.length text ≤ maxMsgLength)%nat →
   SplitMsg text maxMsgLength = [text]).
Proof.
  unfold SplitMsg. split.
  - intros Hne.
    destruct (decide (String.length text ≤ maxMsgLength)%nat) as [Hle|Hgt].
    + split_and!; [done| |simpl; apply append_nil_r].
      by constructor.
    + destruct (split_loop_spec maxMsgLength text "") as (Hj & Hf & Hn).
      { unfold maxMsgLength. simpl. lia. }
      split_and!; [by apply Hn|done|done].
  - intros Hle. by rewrite decide_True.
Qed.

End Segmenter.

(** ** The properties at work on the scripted outside *)

(** C1 fails as stated.  With an empty username and a cold cache [SendMsg]
    returns no status at all; with an empty username and a warm cache it
    never looks at the credentials, sends the message and returns a wired
    status and no error. *)
Lemma SendMsg_missing_username_not_errored :
  StringConfigForKey Demo.hmNoUser ConfigUsername "" = "" ∧
  ¬ @erroredWithoutLogs Demo.silent (Demo.message Demo.hmNoUser "hi")
      Demo.cold ∧
  ¬ @erroredWithoutLogs (Demo.outside [Demo.ok "id-1"] None None)
      (Demo.message Demo.hmNoUser "hi") (Demo.warm "T0").
Proof.
  split_and!.
  - reflexivity.
  - intros (st & e & H & _). vm_compute in H. discriminate H.
  - intros (st & e & H & _). vm_compute in H. discriminate H.
Qed.

Lemma SendMsg_missing_credentials_witness :
  @SendMsg Demo.silent (Demo.message Demo.hmNoUser "hi") Demo.cold =
    ((None,
      Some (Wrapf (Errorf "Missing 'username' config for HM channel")
              "unable to fetch token")),
     Demo.cold).
Proof.
  apply (@SendMsg_missing_credentials Demo.silent
           (Demo.message Demo.hmNoUser "hi") Demo.cold).
  - reflexivity.
  - left. reflexivity.
Defined.

Lemma SendMsg_transport_failure_witness :
  ∃ st w2,
    @SendMsg Demo.dropsSecond (Demo.message Demo.hm Demo.longText) Demo.cold
      = ((Some st, None), w2) ∧
    length (requests w2) = 3%nat ∧
    length (Logs st) = 3%nat ∧
    Status st = MsgWired ∧
    ExternalID st = "id-1".
Proof.
  destruct (@SendMsg_transport_failure Demo.dropsSecond
              (Demo.message Demo.hm Demo.longText) Demo.cold
              "T1" (Some (Demo.ok "T1").1)
              (@FetchToken Demo.dropsSecond Demo.hm
                 (Demo.message Demo.hm Demo.longText) Demo.cold).2
              [Demo.part1] Demo.part2 [] Demo.failed.1
              (Errorf "connection reset"))
    as (st & w2 & Hs & Hr & Hl & _ & _ & Hst & Hid).
  - vm_compute. reflexivity.
  - vm_compute. reflexivity.
  - intros [|j] p Hp; simpl in Hp; [|discriminate Hp].
    injection Hp as <-. vm_compute. reflexivity.
  - vm_compute. reflexivity.
  - exists st, w2. rewrite Hr, Hl. split_and!; [done..|].
    rewrite Hid. vm_compute. reflexivity.
Defined.

Lemma SendMsg_empty_access_token_witness :
  ∃ st,
    (@SendMsg Demo.emptyToken (Demo.message Demo.hm "hi") Demo.cold).1
      = (Some st, None) ∧
    Status st = MsgErrored ∧ length (Logs st) = 1%nat.
Proof.
  destruct (@SendMsg_empty_access_token Demo.emptyToken
              (Demo.message Demo.hm "hi") Demo.cold (Demo.ok "-").1)
    as (st & e & Hs & Hst & Hl & _).
  - reflexivity.
  - vm_compute. discriminate.
  - vm_compute. discriminate.
  - vm_compute. reflexivity.
  - right. vm_compute. reflexivity.
  - exists st. by rewrite Hs, Hl.
Defined.

Lemma SendMsg_ExternalID_witness :
  ExternalID (Demo.returned Demo.allFine
                (Demo.message Demo.hm Demo.longText) Demo.cold) = "id-1".
Proof.
  rewrite (proj1 (@SendMsg_ExternalID Demo.allFine
                    (Demo.message Demo.hm Demo.longText) Demo.cold
                    (Demo.returned Demo.allFine
                       (Demo.message Demo.hm Demo.longText) Demo.cold)
                    ltac:(vm_compute; reflexivity))).
  vm_compute. reflexivity.
Defined.

Lemma SendMsg_send_requests_witness :
  (∃ sent rest,
     @SplitMsgByChannel Demo.dropsSecond Demo.hm
       (@GetTextAndAttachments Demo.dropsSecond
          (Demo.message Demo.hm Demo.longText)) maxMsgLength = sent ++ rest ∧
     requests (@SendMsg Demo.dropsSecond
                 (Demo.message Demo.hm Demo.longText) Demo.cold).2 =
       requests (@FetchToken Demo.dropsSecond Demo.hm
                  (Demo.message Demo.hm Demo.longText) Demo.cold).2 ++
       (@sendRequest (Demo.message Demo.hm Demo.longText) "T1" <$> sent)) ∧
  ReqBody (sendRequest (Demo.message Demo.hm Demo.longText) "T1" Demo.part1) =
    JSONBody [ ("mobile", JSONString "252788383383");
               ("message", JSONString Demo.part1);
               ("senderid", JSONString "2020");
               ("mType", JSONInt (-1));
               ("eType", JSONInt (-1));
               ("UDH", JSONString "") ].
Proof.
  assert (@FetchToken Demo.dropsSecond
            (MsgChannel (Demo.message Demo.hm Demo.longText))
            (Demo.message Demo.hm Demo.longText) Demo.cold =
          (("T1", Some (Demo.ok "T1").1, None),
           (@FetchToken Demo.dropsSecond Demo.hm
              (Demo.message Demo.hm Demo.longText) Demo.cold).2)) as Hf.
  { vm_compute. reflexivity. }
  pose proof (@SendMsg_send_requests Demo.dropsSecond
                (Demo.message Demo.hm Demo.longText) Demo.cold
                "T1" (Some (Demo.ok "T1").1) None _ Hf) as [H Hreq].
  split.
  - destruct H as (sent & rest & Hp & Hr & _).
    exists sent, rest. split; [exact Hp|exact Hr].
  - destruct (Hreq Demo.part1) as (mobile & Hm & _ & _ & Hb & _).
    rewrite Hb. destruct Hm as [Hm|[Hn _]].
    + cbv in Hm. injection Hm as <-. reflexivity.
    + vm_compute in Hn. discriminate Hn.
Defined.

Lemma FetchToken_caches_token_witness :
  ∃ w',
    @FetchToken Demo.noCacheWrite Demo.hm (Demo.message Demo.hm "hi") Demo.cold
      = (("T1", Some (Demo.ok "T1").1, None), w') ∧
    redis w' = ∅ ∧
    errlog w' = [("error caching HM access token",
                  Errorf "redis: connection refused")].
Proof.
  destruct (@FetchToken_caches_token Demo.noCacheWrite Demo.hm
              (Demo.message Demo.hm "hi") Demo.cold (Demo.ok "T1").1 "T1")
    as (w' & Hf & _ & [Hr He] & _).
  - reflexivity.
  - vm_compute. discriminate.
  - vm_compute. discriminate.
  - vm_compute. reflexivity.
  - vm_compute. reflexivity.
  - discriminate.
  - exists w'. by rewrite Hf, Hr, He.
Defined.

Lemma FetchToken_warm_cache_witness :
  @FetchToken Demo.silent Demo.hm (Demo.message Demo.hm "hi") (Demo.warm "T0")
    = (("T0", None, None), Demo.warm "T0").
Proof.
  apply (@FetchToken_warm_cache Demo.silent Demo.hm
           (Demo.message Demo.hm "hi") (Demo.warm "T0") "T0" 5340).
  - reflexivity.
  - vm_compute. reflexivity.
  - discriminate.
Defined.

Lemma FetchToken_token_nonempty_witness : "T1" ≠ "".
Proof.
  apply (@FetchToken_token_nonempty Demo.allFine Demo.hm
           (Demo.message Demo.hm "hi") Demo.cold "T1"
           (Some (Demo.ok "T1").1)
           (@FetchToken Demo.allFine Demo.hm
              (Demo.message Demo.hm "hi") Demo.cold).2).
  vm_compute. reflexivity.
Defined.

Lemma SendMsg_status_states_witness :
  Status (Demo.returned Demo.dropsSecond
            (Demo.message Demo.hm Demo.longText) Demo.cold) = MsgErrored ∨
  Status (Demo.returned Demo.dropsSecond
            (Demo.message Demo.hm Demo.longText) Demo.cold) = MsgWired.
Proof.
  apply (@SendMsg_status_states Demo.dropsSecond
           (Demo.message Demo.hm Demo.longText) Demo.cold).
  vm_compute. reflexivity.
Defined.

(** C8 fails as stated at the empty text: its single part is empty. *)
Lemma SplitMsg_empty_not_segmented :
  SplitMsg "" maxMsgLength = [""] ∧
  ¬ segmented maxMsgLength "" (SplitMsg "" maxMsgLength).
Proof. split; [reflexivity|apply segmented_empty]. Qed.

Lemma SplitMsg_segmented_witness :
  segmented maxMsgLength Demo.longText (SplitMsg Demo.longText maxMsgLength) ∧
  SplitMsg "hi" maxMsgLength = ["hi"].
Proof.
  split.
  - apply (proj1 (SplitMsg_segmented Demo.longText)). discriminate.
  - apply (proj2 (SplitMsg_segmented "hi")). vm_compute. lia.
Defined.

(** ** More on the token fetch *)

Section FetchTokenOutcomes.
Context {E : Externals}.
Implicit Types (w : World) (c : Channel) (msg : Msg) (st : MsgStatus).

(** Every way a live fetch can end, with what it leaves behind. *)
Lemma requestToken_outcome c w token rr err w' :
  let username := StringConfigForKey c ConfigUsername "" in
  let password := StringConfigForKey c ConfigPassword "" in
  requestToken c w = ((token, rr, err), w') →
  (rr = None ∧ token = "" ∧ is_Some err ∧ w' = w ∧
     (username = "" ∨ password = ""))
  ∨ (username ≠ "" ∧ password ≠ "" ∧ is_Some rr ∧ token = "" ∧
     is_Some err ∧ w' = withRequest (tokenRequest username password) w)
  ∨ (username ≠ "" ∧ password ≠ "" ∧ is_Some rr ∧ token ≠ "" ∧
     err = None ∧
     requests w' = requests w ++ [tokenRequest username password] ∧
     match redisSETEX with
     | None =>
         redis w' = <[tokenKey c := (token, 5340)]> (redis w) ∧
         errlog w' = errlog w
     | Some e =>
         redis w' = redis w ∧
         errlog w' = errlog w ++ [("error caching HM access token", e)]
     end).
Proof.
  intros username password. unfold requestToken. fold username password.
  destruct (decide (username = "")) as [Hu|Hu].
  { intros [= <- <- <- <-]. left. eauto 10. }
  destruct (decide (password = "")) as [Hp|Hp].
  { intros [= <- <- <- <-]. left. eauto 10. }
  unfold bind, MakeHTTPRequest.
  destruct (transport _ _) as [rr0 [e|]].
  { intros [= <- <- <- <-]. right; left. unfold withRequest. eauto 10. }
  destruct (GetString _ _) as [token0 [e|]].
  { intros [= <- <- <- <-]. right; left. unfold withRequest. eauto 10. }
  destruct (decide (token0 = "")) as [Ht|Ht].
  { intros [= <- <- <- <-]. right; left. unfold withRequest. eauto 10. }
  unfold redis_SETEX, logrus_Error, ret.
  destruct redisSETEX; intros [= <- <- <- <-]; right; right; simpl;
    eauto 10.
Qed.

(** A fetch is a cache hit, or it is the live fetch. *)
Lemma FetchToken_hit_or_miss c msg w :
  (∃ token, token ≠ "" ∧ (redis_GET (tokenKey c) w).1.1 = token ∧
            FetchToken c msg w = ((token, None, None), w))
  ∨ ((redis_GET (tokenKey c) w).1.1 = "" ∧
     FetchToken c msg w = requestToken c w).
Proof.
  destruct (decide ((redis_GET (tokenKey c) w).1.1 = "")) as [Hm|Hh].
  - right. split; [done|]. by apply FetchToken_miss.
  - left. exists (redis_GET (tokenKey c) w).1.1. split_and!; [done..|].
    unfold FetchToken, bind.
    pose proof (redis_GET_world (tokenKey c) w) as Hw.
    destruct (redis_GET (tokenKey c) w) as [[t e] w0]. simpl in *. subst w0.
    by rewrite decide_True.
Qed.

(** A miss stays a miss as long as the store is as it was. *)
Lemma redis_GET_same_store key w1 w2 :
  redis w1 = redis w2 → (redis_GET key w1).1 = (redis_GET key w2).1.
Proof.
  intros Hr. unfold redis_GET. destruct redisGET; [done|]. rewrite Hr.
  by destruct (redis w2 !! key) as [[v ttl]|].
Qed.

End FetchTokenOutcomes.

(** ** More on the loop over the parts *)

Section SendPartsOutcomes.
Context {E : Externals}.
Implicit Types (w : World) (msg : Msg) (st : MsgStatus).

(** Each turn of the loop adds one request and one log entry. *)
Lemma sendParts_counts msg token parts : ∀ i st w,
  (length (Logs (sendParts msg token i parts st w).1) + length (requests w)
   = length (Logs st) + length (requests (sendParts msg token i parts st w).2)
  )%nat ∧
  (length (requests (sendParts msg token i parts st w).2)
   ≤ length (requests w) + length parts)%nat.
Proof.
  induction parts as [|part parts IH]; intros i st w.
  - simpl. lia.
  - destruct (answer msg token w 0 part) as [rr [e|]] eqn:Ha.
    + rewrite (sendParts_err _ _ _ _ _ _ _ _ _ Ha). simpl.
      rewrite !length_app. simpl. lia.
    + rewrite (sendParts_ok _ _ _ _ _ _ _ _ Ha).
      destruct (IH (S i) (wired i rr (AddLog (sendLog msg (rr, None)) st))
                  (withRequest (sendRequest msg token part) w)) as [H1 H2].
      rewrite wired_Logs in H1. simpl in H1, H2.
      repeat rewrite length_app in H1. repeat rewrite length_app in H2.
      simpl in *. lia.
Qed.

(** A run in which every send goes through. *)
Lemma sendParts_all_ok msg token : ∀ parts i st w,
  (∀ j p, parts !! j = Some p → (answer msg token w j p).2 = None) →
  requests (sendParts msg token i parts st w).2 =
    requests w ++ (sendRequest msg token <$> parts) ∧
  Logs (sendParts msg token i parts st w).1 =
    Logs st ++ imap (λ j p, sendLog msg (answer msg token w j p)) parts ∧
  Status (sendParts msg token i parts st w).1 =
    match parts with [] => Status st | _ :: _ => MsgWired end.
Proof.
  induction parts as [|p parts IH]; intros i st w Hall.
  - simpl. by rewrite !app_nil_r.
  - pose proof (Hall 0%nat p eq_refl) as H0.
    destruct (answer msg token w 0 p) as [rr0 [e0|]] eqn:Ha; [done|].
    rewrite (sendParts_ok _ _ _ _ _ _ _ _ Ha).
    set (st1 := wired i rr0 _). set (w1 := withRequest _ w).
    destruct (IH (S i) st1 w1) as (Hr & Hl & Hs).
    { intros j q Hq. unfold w1. rewrite answer_withRequest.
      by apply (Hall (S j)). }
    rewrite Hr, Hl. split_and!.
    + unfold w1. simpl. by rewrite <- app_assoc.
    + unfold st1. rewrite wired_Logs. simpl. rewrite <- app_assoc. simpl.
      rewrite Ha. do 2 f_equal. apply imap_ext. intros j q _. unfold w1.
      by rewrite answer_withRequest.
    + apply sendParts_Status_wired. unfold st1. apply wired_Status.
Qed.

(** The loop logs an error at most once, as its last entry. *)
Lemma sendParts_error_last msg token parts : ∀ i st w,
  ∃ new,
    Logs (sendParts msg token i parts st w).1 = Logs st ++ new ∧
    ∀ j l, new !! j = Some l → is_Some (LogErr l) → S j = length new.
Proof.
  induction parts as [|part parts IH]; intros i st w.
  - exists []. simpl. rewrite app_nil_r. split; [done|]. by intros j l.
  - destruct (answer msg token w 0 part) as [rr [e|]] eqn:Ha.
    + rewrite (sendParts_err _ _ _ _ _ _ _ _ _ Ha).
      exists [sendLog msg (rr, Some e)]. split; [done|].
      intros [|j] l Hl _; [done|]. by destruct j.
    + rewrite (sendParts_ok _ _ _ _ _ _ _ _ Ha).
      destruct (IH (S i) (wired i rr (AddLog (sendLog msg (rr, None)) st))
                  (withRequest (sendRequest msg token part) w))
        as (new & Hl & Hlast).
      exists (sendLog msg (rr, None) :: new).
      rewrite Hl, wired_Logs. simpl. rewrite <- app_assoc. split; [done|].
      intros [|j] l Hj Herr; simpl in Hj.
      * injection Hj as <-. simpl in Herr. by destruct Herr.
      * simpl. f_equal. by eapply Hlast.
Qed.

(** What a run of the loop leaves: the requests of the parts it got to, and
    one log entry for each of them. *)
Lemma sendParts_trace msg token parts : ∀ i st w,
  ∃ sent rest,
    parts = sent ++ rest ∧
    requests (sendParts msg token i parts st w).2 =
      requests w ++ (sendRequest msg token <$> sent) ∧
    Logs (sendParts msg token i parts st w).1 =
      Logs st ++ imap (λ j p, sendLog msg (answer msg token w j p)) sent.
Proof.
  induction parts as [|part parts IH]; intros i st w.
  - exists [], []. simpl. by rewrite !app_nil_r.
  - destruct (answer msg token w 0 part) as [rr [e|]] eqn:Ha.
    + rewrite (sendParts_err _ _ _ _ _ _ _ _ _ Ha).
      exists [part], parts. simpl. by rewrite Ha.
    + rewrite (sendParts_ok _ _ _ _ _ _ _ _ Ha).
      destruct (IH (S i) (wired i rr (AddLog (sendLog msg (rr, None)) st))
                  (withRequest (sendRequest msg token part) w))
        as (sent & rest & -> & Hr & Hl).
      exists (part :: sent), rest. rewrite Hr, Hl, wired_Logs. simpl.
      rewrite <- !app_assoc. simpl. rewrite Ha. split_and!; [done..|].
      do 2 f_equal. apply imap_ext. intros j q _.
      by rewrite answer_withRequest.
Qed.

End SendPartsOutcomes.

(** ** Further properties of the token fetch *)

Section FetchTokenExtras.
Context {E : Externals}.
Implicit Types (w : World) (c : Channel) (msg : Msg) (st : MsgStatus).

(** What a fetch can do to the store and to logrus. *)
Lemma FetchToken_store c msg w token rr err w' :
  FetchToken c msg w = ((token, rr, err), w') →
  (redis w' = redis w ∧
   (errlog w' = errlog w ∨
    ∃ e, redisSETEX = Some e ∧ err = None ∧
         errlog w' = errlog w ++ [("error caching HM access token", e)]))
  ∨ (err = None ∧ redisSETEX = None ∧
     redis w' = <[tokenKey c := (token, 5340)]> (redis w) ∧
     errlog w' = errlog w).
Proof.
  intros Hf.
  destruct (FetchToken_hit_or_miss c msg w)
    as [(t & _ & _ & Hhit)|[_ Hmiss]].
  - rewrite Hhit in Hf. injection Hf as <- <- <- <-. left. eauto.
  - rewrite Hmiss in Hf. apply requestToken_outcome in Hf
      as [(_ & _ & _ & -> & _)
         |[(_ & _ & _ & _ & _ & ->)
          |(_ & _ & _ & _ & -> & _ & Hs)]].
    + left. eauto.
    + left. simpl. eauto.
    + destruct redisSETEX as [e|].
      * destruct Hs as [-> ->]. left. split; [done|]. right. by exists e.
      * destruct Hs as [-> ->]. by right.
Qed.

(** X1: when the cache misses, both credentials are set and the token
    request fails at the transport, [SendMsg] returns an errored status
    whose only log entry is the token exchange, carrying the error wrapped
    as "error making token request"; its own error is nil, the token request
    is the only request made and the store is not written. *)
Theorem SendMsg_token_transport_failure msg w rr e :
  let username := StringConfigForKey (MsgChannel msg) ConfigUsername "" in
  let password := StringConfigForKey (MsgChannel msg) ConfigPassword "" in
  (redis_GET (tokenKey (MsgChannel msg)) w).1.1 = "" →
  username ≠ "" →
  password ≠ "" →
  transport (length (requests w)) (tokenRequest username password)
    = (rr, Some e) →
  ∃ st,
    SendMsg msg w =
      ((Some st, None), withRequest (tokenRequest username password) w) ∧
    Status st = MsgErrored ∧
    ExternalID st = "" ∧
    Logs st =
      [tokenLog msg rr (Some (Wrapf e "error making token request"))] ∧
    LogErr (tokenLog msg rr (Some (Wrapf e "error making token request")))
      = Some (Wrapf e "error making token request").
Proof.
  intros username password Hmiss Hu Hp Ht.
  assert (FetchToken (MsgChannel msg) msg w =
            (("", Some rr, Some (Wrapf e "error making token request")),
             withRequest (tokenRequest username password) w)) as Hf.
  { rewrite FetchToken_miss by done. unfold requestToken.
    fold username. rewrite (decide_False (P := username = "")) by done.
    fold password. rewrite (decide_False (P := password = "")) by done.
    unfold bind, MakeHTTPRequest. by rewrite Ht. }
  eexists. rewrite (SendMsg_unfold _ _ _ _ _ _ Hf). by split_and!.
Qed.

(** X3: a fetch that returns an error returns no token with it, writes
    nothing to the store and reports nothing to logrus. *)
Theorem FetchToken_error_leaves_store c msg w token rr e w' :
  FetchToken c msg w = ((token, rr, Some e), w') →
  token = "" ∧ redis w' = redis w ∧ errlog w' = errlog w.
Proof.
  intros Hf.
  destruct (FetchToken_hit_or_miss c msg w)
    as [(t & _ & _ & Hhit)|[_ Hmiss]].
  - rewrite Hhit in Hf. discriminate Hf.
  - rewrite Hmiss in Hf. apply requestToken_outcome in Hf
      as [(_ & -> & _ & -> & _)
         |[(_ & _ & _ & -> & _ & ->)
          |(_ & _ & _ & _ & [=] & _)]]; done.
Qed.

(** X4: fetch, then fetch again.  When the first fetch is a live one that
    succeeds and both Redis commands work, the second fetch is answered
    from the store with the same token: the two fetches together make one
    request, and the store holds the token with a TTL of 5340. *)
Theorem FetchToken_then_cached c msg w rr token :
  let username := StringConfigForKey c ConfigUsername "" in
  let password := StringConfigForKey c ConfigPassword "" in
  redisGET = None →
  redisSETEX = None →
  (redis_GET (tokenKey c) w).1.1 = "" →
  username ≠ "" →
  password ≠ "" →
  transport (length (requests w)) (tokenRequest username password)
    = (rr, None) →
  GetString (Body rr) ["access_token"] = (token, None) →
  token ≠ "" →
  ∃ w',
    (do _ <- FetchToken c msg; FetchToken c msg) w
      = ((token, None, None), w') ∧
    requests w' = requests w ++ [tokenRequest username password] ∧
    redis w' !! ("hm_token_" +:+ UUID c) = Some (token, 5340).
Proof.
  intros username password Hget Hset Hmiss Hu Hp Ht Hg Hne.
  pose proof (requestToken_ok c w rr token Hu Hp Ht Hg Hne) as Hr.
  rewrite Hset in Hr. rewrite <- (FetchToken_miss c msg w Hmiss) in Hr.
  eexists. unfold bind at 1. rewrite Hr. split_and!.
  - apply (FetchToken_hit c msg _ token 5340 Hget); [|done].
    simpl. apply lookup_insert_eq.
  - done.
  - simpl. apply lookup_insert_eq.
Qed.

(** X5: when the cache misses, both credentials are set and the cache
    write is refused, nothing is kept: whatever the provider answers, a
    second fetch goes to the token endpoint again, two requests in all. *)
Theorem FetchToken_uncached_refetch c msg w e :
  let username := StringConfigForKey c ConfigUsername "" in
  let password := StringConfigForKey c ConfigPassword "" in
  redisSETEX = Some e →
  (redis_GET (tokenKey c) w).1.1 = "" →
  username ≠ "" →
  password ≠ "" →
  requests ((do _ <- FetchToken c msg; FetchToken c msg) w).2 =
    requests w ++ [tokenRequest username password;
                   tokenRequest username password].
Proof.
  intros username password Hset Hmiss Hu Hp.
  unfold bind at 1.
  destruct (FetchToken c msg w) as [[[t1 rr1] e1] w1] eqn:Hf1.
  assert (redis w1 = redis w ∧
          requests w1 = requests w ++ [tokenRequest username password])
    as [Hr1 Hq1].
  { rewrite FetchToken_miss in Hf1 by done.
    apply requestToken_outcome in Hf1
      as [(_ & _ & _ & _ & [?|?])
         |[(_ & _ & _ & _ & _ & ->)
          |(_ & _ & _ & _ & _ & Hq & Hs)]]; [done..| |].
    - done.
    - rewrite Hset in Hs. by destruct Hs as [-> _]. }
  assert ((redis_GET (tokenKey c) w1).1.1 = "") as Hmiss1.
  { by rewrite (redis_GET_same_store _ w1 w Hr1). }
  destruct (FetchToken c msg w1) as [[[t2 rr2] e2] w2] eqn:Hf2.
  rewrite FetchToken_miss in Hf2 by done.
  apply requestToken_outcome in Hf2
    as [(_ & _ & _ & _ & [?|?])
       |[(_ & _ & _ & _ & _ & ->)
        |(_ & _ & _ & _ & _ & Hq & _)]]; [done..| |].
  - simpl. rewrite Hq1, <- app_assoc. done.
  - simpl. rewrite Hq, Hq1, <- app_assoc. done.
Qed.

(** X9: a fetch makes no request or exactly one; that one is a POST to
    the token endpoint whose form holds the channel's username and password,
    neither of them empty, and the grant type "password", sent as
    application/x-www-form-urlencoded and without Authorization header. *)
Theorem FetchToken_token_request c msg w :
  let username := StringConfigForKey c ConfigUsername "" in
  let password := StringConfigForKey c ConfigPassword "" in
  let r := tokenRequest username password in
  requests (FetchToken c msg w).2 = requests w ∨
  (requests (FetchToken c msg w).2 = requests w ++ [r] ∧
   username ≠ "" ∧ password ≠ "" ∧
   Method r = "POST" ∧ URL r = tokenURL ∧
   ReqBody r = FormBody [ ("Username", [username]);
                          ("Password", [password]);
                          ("grant_type", ["password"]) ] ∧
   header_get "Content-Type" (Header r)
     = Some "application/x-www-form-urlencoded" ∧
   header_get "Accept" (Header r) = Some "application/json" ∧
   header_get "Authorization" (Header r) = None).
Proof.
  intros username password r.
  destruct (FetchToken c msg w) as [[[t rr] err] w'] eqn:Hf.
  destruct (FetchToken_hit_or_miss c msg w)
    as [(t0 & _ & _ & Hhit)|[_ Hmiss]].
  - rewrite Hhit in Hf. injection Hf as <- <- <- <-. by left.
  - rewrite Hmiss in Hf. apply requestToken_outcome in Hf
      as [(_ & _ & _ & -> & _)
         |[(Hu & Hp & _ & _ & _ & ->)
          |(Hu & Hp & _ & _ & _ & Hq & _)]].
    + by left.
    + right. by split_and!.
    + right. by split_and!.
Qed.

End FetchTokenExtras.

(** ** Further properties of [SendMsg] *)

Section SendMsgExtras.
Context {E : Externals}.
Implicit Types (w : World) (c : Channel) (msg : Msg) (st : MsgStatus).

(** After the token fetch [SendMsg] only adds requests. *)
Lemma SendMsg_store msg w :
  redis (SendMsg msg w).2 = redis (FetchToken (MsgChannel msg) msg w).2 ∧
  errlog (SendMsg msg w).2 = errlog (FetchToken (MsgChannel msg) msg w).2.
Proof.
  destruct (FetchToken (MsgChannel msg) msg w) as [[[token rr] err] w1]
    eqn:Hf.
  rewrite (SendMsg_unfold _ _ _ _ _ _ Hf).
  destruct err as [e|]; [by destruct rr|].
  destruct (sendParts_frame msg token
              (SplitMsgByChannel (MsgChannel msg)
                 (GetTextAndAttachments msg) maxMsgLength)
              0 (tokenStatus msg rr None) w1)
    as (sent & rest & _ & _ & Hr & Hl).
  by destruct rr.
Qed.

(** X2: [FetchToken] and [SendMsg] leave every key of the store other than
    the channel's own "hm_token_<channel UUID>" as it was. *)
Theorem SendMsg_other_keys msg w k :
  k ≠ "hm_token_" +:+ UUID (MsgChannel msg) →
  redis (FetchToken (MsgChannel msg) msg w).2 !! k = redis w !! k ∧
  redis (SendMsg msg w).2 !! k = redis w !! k.
Proof.
  intros Hk. rewrite (proj1 (SendMsg_store msg w)).
  destruct (FetchToken (MsgChannel msg) msg w) as [[[token rr] err] w1]
    eqn:Hf.
  simpl. apply FetchToken_store in Hf as [[-> _]|(_ & _ & -> & _)].
  - done.
  - by rewrite lookup_insert_ne.
Qed.

(** X6: every HTTP exchange is logged exactly once: a returned status has
    as many log entries as [SendMsg] made requests, and at most one more
    than the message has parts. *)
Theorem SendMsg_logs_match_requests msg w st :
  (SendMsg msg w).1.1 = Some st →
  length (requests (SendMsg msg w).2)
    = (length (requests w) + length (Logs st))%nat ∧
  (length (Logs st) ≤
   1 + length (SplitMsgByChannel (MsgChannel msg)
                 (GetTextAndAttachments msg) maxMsgLength))%nat.
Proof.
  intros Hst.
  destruct (FetchToken (MsgChannel msg) msg w) as [[[token rr] err] w1]
    eqn:Hf.
  pose proof (FetchToken_world _ _ _ _ _ _ _ Hf) as Hw.
  rewrite (SendMsg_unfold _ _ _ _ _ _ Hf) in Hst |- *.
  pose proof (tokenStatus_Logs msg rr err) as Htl.
  destruct err as [e|].
  { destruct rr as [r|]; [|done]. simpl in Hst. injection Hst as <-.
    simpl. rewrite Hw, length_app. simpl. lia. }
  set (parts := SplitMsgByChannel _ _ _) in *.
  assert (st = (sendParts msg token 0 parts
                  (tokenStatus msg rr None) w1).1) as ->.
  { destruct rr; simpl in Hst; by injection Hst as <-. }
  destruct (sendParts_counts msg token parts 0 (tokenStatus msg rr None) w1)
    as [Hc Hb].
  assert (requests (match rr with
                    | Some _ | None =>
                        let r := sendParts msg token 0 parts
                                   (tokenStatus msg rr None) w1 in
                        (Some r.1, @None error, r.2)
                    end).2
          = requests (sendParts msg token 0 parts
                        (tokenStatus msg rr None) w1).2) as ->
    by (by destruct rr).
  rewrite Htl in Hc. rewrite Hw in Hc, Hb. rewrite length_app in Hc, Hb.
  destruct rr; simpl in *; lia.
Qed.

(** X7: when the token was obtained and every part is sent without error,
    [SendMsg] sends all the parts in order, logs one entry without error per
    part (after the token entry, if any), leaves the store as the token
    fetch left it, and returns a wired status, or an errored one when the
    message has no part at all. *)
Theorem SendMsg_all_sent msg w token rr0 w1 :
  let parts := SplitMsgByChannel (MsgChannel msg)
                 (GetTextAndAttachments msg) maxMsgLength in
  FetchToken (MsgChannel msg) msg w = ((token, rr0, None), w1) →
  (∀ j p, parts !! j = Some p → (answer msg token w1 j p).2 = None) →
  ∃ st w2,
    SendMsg msg w = ((Some st, None), w2) ∧
    requests w2 = requests w1 ++ (sendRequest msg token <$> parts) ∧
    redis w2 = redis w1 ∧
    Logs st =
      match rr0 with Some r => [tokenLog msg r None] | None => [] end ++
      imap (λ j p, sendLog msg (answer msg token w1 j p)) parts ∧
    (∀ l, l ∈ Logs st → LogErr l = None) ∧
    Status st = match parts with [] => MsgErrored | _ :: _ => MsgWired end.
Proof.
  intros parts Hf Hall.
  rewrite (SendMsg_unfold _ _ _ _ _ _ Hf). fold parts.
  destruct (sendParts_all_ok msg token parts 0 (tokenStatus msg rr0 None)
              w1 Hall) as (Hr & Hl & Hs).
  destruct (sendParts_frame msg token parts 0 (tokenStatus msg rr0 None) w1)
    as (_ & _ & _ & _ & Hd & _).
  set (r := sendParts msg token 0 parts (tokenStatus msg rr0 None) w1) in *.
  exists r.1, r.2. split; [by destruct rr0|]. split; [done|].
  split; [done|]. rewrite Hl, tokenStatus_Logs, Hs, tokenStatus_Status.
  split; [done|]. split; [|done].
  intros l [Hin|Hin]%elem_of_app.
  - destruct rr0; [|by apply elem_of_nil in Hin].
    by apply list_elem_of_singleton in Hin as ->.
  - apply list_elem_of_lookup in Hin as [j Hj].
    apply list_lookup_imap_Some in Hj as (p & Hp & ->).
    pose proof (Hall j p Hp) as Hok. unfold sendLog. by rewrite Hok.
Qed.

(** X8: [SendMsg] returns either a status or an error, never both and never
    neither, and it returns the error exactly when the cache holds no token
    and the username or the password is empty. *)
Theorem SendMsg_error_iff_no_credentials msg w :
  ((SendMsg msg w).1.1 = None ↔ is_Some (SendMsg msg w).1.2) ∧
  (is_Some (SendMsg msg w).1.2 ↔
   (redis_GET (tokenKey (MsgChannel msg)) w).1.1 = "" ∧
   (StringConfigForKey (MsgChannel msg) ConfigUsername "" = "" ∨
    StringConfigForKey (MsgChannel msg) ConfigPassword "" = "")).
Proof.
  destruct (FetchToken (MsgChannel msg) msg w) as [[[token rr] err] w1]
    eqn:Hf.
  rewrite (SendMsg_unfold _ _ _ _ _ _ Hf).
  destruct (FetchToken_hit_or_miss (MsgChannel msg) msg w)
    as [(t0 & Hne & Hget & Hhit)|[Hm Hmiss]].
  - rewrite Hhit in Hf. injection Hf as <- <- <- <-. simpl. split.
    + split; [done|]. by intros [? [=]].
    + split; [by intros [? [=]]|]. intros [Hm _]. congruence.
  - rewrite Hmiss in Hf. apply requestToken_outcome in Hf
      as [(-> & _ & [e ->] & _ & Hc)
         |[(Hu & Hp & [r ->] & _ & [e ->] & _)
          |(Hu & Hp & [r ->] & _ & -> & _)]]; simpl.
    + split; [done|]. split; [done|]. by intros _.
    + split.
      * split; [done|]. by intros [? [=]].
      * split; [by intros [? [=]]|]. intros [_ [?|?]]; done.
    + split.
      * split; [done|]. by intros [? [=]].
      * split; [by intros [? [=]]|]. intros [_ [?|?]]; done.
Qed.

(** X12: with a warm cache (the store answers and holds a non-empty token
    under the channel's key) [SendMsg] never contacts the token endpoint: it
    returns a status and a nil error, every request it makes is the send of
    a part with the cached token as bearer, every log entry is the entry of
    one of these sends, in order, and the store is untouched. *)
Theorem SendMsg_warm_cache msg w token ttl :
  redisGET = None →
  redis w !! ("hm_token_" +:+ UUID (MsgChannel msg)) = Some (token, ttl) →
  token ≠ "" →
  ∃ st sent rest,
    (SendMsg msg w).1 = (Some st, None) ∧
    SplitMsgByChannel (MsgChannel msg) (GetTextAndAttachments msg)
      maxMsgLength = sent ++ rest ∧
    requests (SendMsg msg w).2 =
      requests w ++ (sendRequest msg token <$> sent) ∧
    Logs st = imap (λ j p, sendLog msg (answer msg token w j p)) sent ∧
    redis (SendMsg msg w).2 = redis w.
Proof.
  intros Hup Hget Hne.
  pose proof (FetchToken_hit (MsgChannel msg) msg w token ttl Hup Hget Hne)
    as Hf.
  rewrite (SendMsg_unfold _ _ _ _ _ _ Hf). simpl.
  set (parts := SplitMsgByChannel _ _ _).
  destruct (sendParts_trace msg token parts 0 (tokenStatus msg None None) w)
    as (sent & rest & Hp & Hr & Hl).
  destruct (sendParts_frame msg token parts 0 (tokenStatus msg None None) w)
    as (_ & _ & _ & _ & Hd & _).
  exists (sendParts msg token 0 parts (tokenStatus msg None None) w).1,
         sent, rest.
  by split_and!.
Qed.

(** X13: the log of a returned status ends at the first failure: an entry
    carrying an error is always the last entry. *)
Theorem SendMsg_error_entry_is_last msg w st j l :
  (SendMsg msg w).1.1 = Some st →
  Logs st !! j = Some l →
  is_Some (LogErr l) →
  S j = length (Logs st).
Proof.
  intros Hst Hj Herr.
  destruct (FetchToken (MsgChannel msg) msg w) as [[[token rr] err] w1]
    eqn:Hf.
  rewrite (SendMsg_unfold _ _ _ _ _ _ Hf) in Hst.
  destruct err as [e|].
  { destruct rr as [r|]; [|done]. simpl in Hst. injection Hst as <-.
    simpl in *. destruct j as [|j]; [done|]. by destruct j. }
  set (parts := SplitMsgByChannel _ _ _) in *.
  assert (st = (sendParts msg token 0 parts
                  (tokenStatus msg rr None) w1).1) as ->.
  { destruct rr; simpl in Hst; by injection Hst as <-. }
  destruct (sendParts_error_last msg token parts 0
              (tokenStatus msg rr None) w1) as (new & Hl & Hlast).
  rewrite Hl in Hj |- *. rewrite tokenStatus_Logs in Hj |- *.
  destruct rr as [r|]; simpl in *.
  - destruct j as [|j].
    + injection Hj as <-. by destruct Herr.
    + f_equal. by eapply Hlast.
  - by eapply Hlast.
Qed.

End SendMsgExtras.

(** ** The helpers the requests are built with *)

Section RequestHelpers.
Implicit Types (s p : string) (h : list (string * string)) (req : Request).

(** X11: [TrimPrefix] as line 106 uses it on the URN path: a text that
    starts with the prefix loses it, once (a second copy stays), and a text
    that does not start with the prefix is returned unchanged. *)
Theorem TrimPrefix_spec p s :
  TrimPrefix (p +:+ s) p = s ∧
  (String.prefix p s = false → TrimPrefix s p = s).
Proof.
  unfold TrimPrefix. split.
  - by rewrite strip_prefix_append.
  - intros Hn. by rewrite strip_prefix_not_prefix.
Qed.

End RequestHelpers.

(** ** The further properties at work on the scripted outside *)

Lemma SendMsg_token_transport_failure_witness :
  ∃ st,
    (@SendMsg Demo.tokenDown (Demo.message Demo.hm "hi") Demo.cold).1
      = (Some st, None) ∧
    Status st = MsgErrored ∧ length (Logs st) = 1%nat.
Proof.
  pose proof (@SendMsg_token_transport_failure Demo.tokenDown
                (Demo.message Demo.hm "hi") Demo.cold Demo.failed.1
                (Errorf "connection reset")
                ltac:(reflexivity)
                ltac:(vm_compute; discriminate)
                ltac:(vm_compute; discriminate)
                ltac:(vm_compute; reflexivity))
    as (st & Hs & Hst & _ & Hl & _).
  exists st. by rewrite Hs, Hl.
Defined.

Lemma SendMsg_other_keys_witness :
  redis (@FetchToken Demo.allFine
           (MsgChannel (Demo.message Demo.hm "hi"))
           (Demo.message Demo.hm "hi") (Demo.warm "T0")).2 !! "other"
    = redis (Demo.warm "T0") !! "other" ∧
  redis (@SendMsg Demo.allFine (Demo.message Demo.hm "hi")
           (Demo.warm "T0")).2 !! "other"
    = redis (Demo.warm "T0") !! "other".
Proof.
  apply (@SendMsg_other_keys Demo.allFine (Demo.message Demo.hm "hi")
           (Demo.warm "T0") "other").
  vm_compute. discriminate.
Defined.

Lemma FetchToken_error_leaves_store_witness :
  "" = "" ∧
  redis (@FetchToken Demo.tokenDown Demo.hm (Demo.message Demo.hm "hi")
           Demo.cold).2 = redis Demo.cold ∧
  errlog (@FetchToken Demo.tokenDown Demo.hm (Demo.message Demo.hm "hi")
            Demo.cold).2 = errlog Demo.cold.
Proof.
  apply (@FetchToken_error_leaves_store Demo.tokenDown Demo.hm
           (Demo.message Demo.hm "hi") Demo.cold ""
           (Some Demo.failed.1)
           (Wrapf (Errorf "connection reset") "error making token request")).
  vm_compute. reflexivity.
Defined.

Lemma FetchToken_then_cached_witness :
  ∃ w',
    (do _ <- @FetchToken Demo.allFine Demo.hm (Demo.message Demo.hm "hi");
     @FetchToken Demo.allFine Demo.hm (Demo.message Demo.hm "hi")) Demo.cold
      = (("T1", None, None), w') ∧
    length (requests w') = 1%nat.
Proof.
  pose proof (@FetchToken_then_cached Demo.allFine Demo.hm
                (Demo.message Demo.hm "hi") Demo.cold (Demo.ok "T1").1 "T1"
                ltac:(reflexivity) ltac:(reflexivity) ltac:(reflexivity)
                ltac:(vm_compute; discriminate)
                ltac:(vm_compute; discriminate)
                ltac:(vm_compute; reflexivity)
                ltac:(vm_compute; reflexivity)
                ltac:(discriminate))
    as (w' & Hf & Hr & _).
  exists w'. split; [exact Hf|]. by rewrite Hr.
Defined.

Lemma FetchToken_uncached_refetch_witness :
  length (requests
            ((do _ <- @FetchToken Demo.noCacheWrite Demo.hm
                        (Demo.message Demo.hm "hi");
              @FetchToken Demo.noCacheWrite Demo.hm
                (Demo.message Demo.hm "hi")) Demo.cold).2) = 2%nat.
Proof.
  rewrite (@FetchToken_uncached_refetch Demo.noCacheWrite Demo.hm
             (Demo.message Demo.hm "hi") Demo.cold
             (Errorf "redis: connection refused")
             ltac:(reflexivity) ltac:(reflexivity)
             ltac:(vm_compute; discriminate)
             ltac:(vm_compute; discriminate)).
  reflexivity.
Defined.

Lemma SendMsg_logs_match_requests_witness :
  length (requests (@SendMsg Demo.dropsSecond
                      (Demo.message Demo.hm Demo.longText) Demo.cold).2)
    = (length (requests Demo.cold) +
       length (Logs (Demo.returned Demo.dropsSecond
                       (Demo.message Demo.hm Demo.longText) Demo.cold)))%nat.
Proof.
  apply (@SendMsg_logs_match_requests Demo.dropsSecond
           (Demo.message Demo.hm Demo.longText) Demo.cold
           (Demo.returned Demo.dropsSecond
              (Demo.message Demo.hm Demo.longText) Demo.cold)).
  vm_compute. reflexivity.
Defined.

Lemma SendMsg_all_sent_witness :
  ∃ st w2,
    @SendMsg Demo.allFine (Demo.message Demo.hm Demo.longText) Demo.cold
      = ((Some st, None), w2) ∧
    length (requests w2) = 3%nat.
Proof.
  assert (@FetchToken Demo.allFine
            (MsgChannel (Demo.message Demo.hm Demo.longText))
            (Demo.message Demo.hm Demo.longText) Demo.cold =
          (("T1", Some (Demo.ok "T1").1, None),
           (@FetchToken Demo.allFine Demo.hm
              (Demo.message Demo.hm Demo.longText) Demo.cold).2)) as Hf
    by (vm_compute; reflexivity).
  assert (∀ j p,
            @SplitMsgByChannel Demo.allFine
              (MsgChannel (Demo.message Demo.hm Demo.longText))
              (@GetTextAndAttachments Demo.allFine
                 (Demo.message Demo.hm Demo.longText)) maxMsgLength !! j
              = Some p →
            (@answer Demo.allFine (Demo.message Demo.hm Demo.longText) "T1"
               (@FetchToken Demo.allFine Demo.hm
                  (Demo.message Demo.hm Demo.longText) Demo.cold).2 j p).2
              = None) as Hall.
  { intros [|[|j]] p Hp; vm_compute in Hp; [| |discriminate Hp];
      injection Hp as <-; vm_compute; reflexivity. }
  pose proof (@SendMsg_all_sent Demo.allFine
                (Demo.message Demo.hm Demo.longText) Demo.cold
                "T1" (Some (Demo.ok "T1").1) _ Hf Hall)
    as (st & w2 & Hs & Hr & _).
  exists st, w2. split; [exact Hs|]. rewrite Hr. vm_compute. reflexivity.
Defined.

Lemma SendMsg_warm_cache_witness :
  ∃ st sent rest,
    (@SendMsg Demo.sendOnly (Demo.message Demo.hm "hi") (Demo.warm "T0")).1
      = (Some st, None) ∧
    @SplitMsgByChannel Demo.sendOnly
      (MsgChannel (Demo.message Demo.hm "hi"))
      (@GetTextAndAttachments Demo.sendOnly (Demo.message Demo.hm "hi"))
      maxMsgLength = sent ++ rest ∧
    requests (@SendMsg Demo.sendOnly (Demo.message Demo.hm "hi")
                (Demo.warm "T0")).2 =
      requests (Demo.warm "T0") ++
      (@sendRequest (Demo.message Demo.hm "hi") "T0" <$> sent) ∧
    Logs st =
      imap (λ j p, sendLog (Demo.message Demo.hm "hi")
                     (@answer Demo.sendOnly (Demo.message Demo.hm "hi") "T0"
                        (Demo.warm "T0") j p)) sent ∧
    redis (@SendMsg Demo.sendOnly (Demo.message Demo.hm "hi")
             (Demo.warm "T0")).2 = redis (Demo.warm "T0").
Proof.
  exact (@SendMsg_warm_cache Demo.sendOnly (Demo.message Demo.hm "hi")
           (Demo.warm "T0") "T0" 5340
           ltac:(reflexivity)
           ltac:(vm_compute; reflexivity)
           ltac:(discriminate)).
Defined.

Lemma SendMsg_error_entry_is_last_witness :
  3%nat = length (Logs (Demo.returned Demo.dropsSecond
                          (Demo.message Demo.hm Demo.longText) Demo.cold)).
Proof.
  eapply (@SendMsg_error_entry_is_last Demo.dropsSecond
            (Demo.message Demo.hm Demo.longText) Demo.cold
            (Demo.returned Demo.dropsSecond
               (Demo.message Demo.hm Demo.longText) Demo.cold) 2%nat).
  - vm_compute. reflexivity.
  - vm_compute. reflexivity.
  - vm_compute. eexists. reflexivity.
Defined.

Lemma TrimPrefix_spec_witness :
  TrimPrefix ("+" +:+ "+252788383383") "+" = "+252788383383" ∧
  TrimPrefix "252788383383" "+" = "252788383383".
Proof.
  split.
  - apply (proj1 (TrimPrefix_spec "+" "+252788383383")).
  - apply (proj2 (TrimPrefix_spec "+" "252788383383")). reflexivity.
Defined.
